(** * SignalR client core: hub connection and HTTP negotiation

    A shallow embedding of [hubconnection.go] and of the HTTP connection
    constructor [NewHTTPConnection], with the properties of the specification
    stated and settled over it.

    Go maps are references: every [map] value lives in a store and is named by
    a [ref], so that two holders of the same map see each other's writes.
    Goroutines racing through a [select] are modelled by a step function over
    scheduler events; a schedule is a list of events. *)

From Stdlib Require Import ZArith.
From stdpp Require Import gmap strings list.

(** A reference to a Go map held in a store. *)
Abbreviation ref := positive.

(** * Hub connection ([hubconnection.go]) *)
Module Hub.

(** Go's [error] values that this file can tell apart: [context.Canceled],
    what [ctx.Err()] is once the scope is cancelled, and everything an
    external collaborator may report. [None : option error] is [nil]. *)
Inductive error :=
| Canceled
| IOError (text : string).

Record closeMessage := {
  cm_Type : Z;
  cm_Error : string;
  cm_AllowReconnect : bool
}.

Record hubMessage := { hm_Type : Z }.

Section HubConnection.

(** [V] stands for [interface{}] payloads, [Msg] for what the protocol parses
    out of the receive buffer, [W] for the state of the peer behind the
    [Connection] (what it still has to deliver, what was written to it). *)
Context {V Msg W : Type}.

Record sendOnlyHubInvocationMessage := {
  im_Type : Z;
  im_Target : string;
  im_Arguments : list V
}.

Record streamItemMessage := {
  sm_Type : Z;
  sm_InvocationID : string;
  sm_Item : V
}.

Record completionMessage := {
  co_Type : Z;
  co_InvocationID : string;
  co_Result : V;
  co_Error : string
}.

(** The [interface{}] argument of [writeMessage]: one of the message structs
    the typed senders build. *)
Inductive outMessage :=
| OutClose (m : closeMessage)
| OutInvocation (m : sendOnlyHubInvocationMessage)
| OutStreamItem (m : streamItemMessage)
| OutCompletion (m : completionMessage)
| OutPing (m : hubMessage).

(** The external capabilities. [ReadMessage] takes what is in the buffer and
    returns the message, [complete], the error and what it left in the buffer.
    [Read] is given the slice [data] and returns [n], the slice as it is
    afterwards and the error ([0 <= n <= len data], the [io.Reader] contract).
    [WriteMessage] serialises onto the connection. *)
Record HubProtocol := {
  ReadMessage : list Byte.byte -> (option Msg * bool * option error) * list Byte.byte;
  WriteMessage : outMessage -> W -> option error * W
}.

Record Connection := {
  Read : list Byte.byte -> W -> (nat * list Byte.byte * option error) * W;
  conn_ConnectionID : string
}.

(** The struct behind the pointer receiver. [Connected] is the [int32] used
    through [sync/atomic]; [items] names the map made by the constructor;
    [context_done] is the state of the scope made by [context.WithCancel]
    ([abort] sets it, nothing clears it); [wire] is the state of the peer. *)
Record defaultHubConnection := {
  Protocol : HubProtocol;
  Connected : Z;
  Conn : Connection;
  maximumReceiveMessageSize : Z;
  items : ref;
  context_done : bool;
  wire : W
}.

Definition set_Connected (x : Z) (c : defaultHubConnection) :=
  {| Protocol := Protocol c; Connected := x; Conn := Conn c;
     maximumReceiveMessageSize := maximumReceiveMessageSize c;
     items := items c; context_done := context_done c; wire := wire c |}.

Definition set_context_done (b : bool) (c : defaultHubConnection) :=
  {| Protocol := Protocol c; Connected := Connected c; Conn := Conn c;
     maximumReceiveMessageSize := maximumReceiveMessageSize c;
     items := items c; context_done := b; wire := wire c |}.

Definition set_wire (w : W) (c : defaultHubConnection) :=
  {| Protocol := Protocol c; Connected := Connected c; Conn := Conn c;
     maximumReceiveMessageSize := maximumReceiveMessageSize c;
     items := items c; context_done := context_done c; wire := w |}.

(** The store of [map[string]interface{}] values. *)
Abbreviation Heap := (gmap ref (gmap string V)).

(** A reference no map of the store uses yet. *)
Definition fresh_ref (h : Heap) : ref := fresh (dom h).

(** [newHubConnection]: [make(map[string]interface{})] allocates the items
    map; the scope starts not cancelled; [Connected] has its zero value. *)
Definition newHubConnection (connection : Connection) (protocol : HubProtocol)
    (maximumReceiveMessageSize : Z) (w : W) (h : Heap)
    : defaultHubConnection * Heap :=
  let r := fresh_ref h in
  ({| Protocol := protocol; Connected := 0; Conn := connection;
      maximumReceiveMessageSize := maximumReceiveMessageSize;
      items := r; context_done := false; wire := w |},
   <[r := ∅]> h).

Definition Items (c : defaultHubConnection) : ref := items c.

(** [atomic.CompareAndSwapInt32(&c.Connected, 0, 1)] *)
Definition Start (c : defaultHubConnection) : defaultHubConnection :=
  if (Connected c =? 0)%Z then set_Connected 1 c else c.

(** [atomic.LoadInt32(&c.Connected) == 1] *)
Definition IsConnected (c : defaultHubConnection) : bool :=
  (Connected c =? 1)%Z.

Definition ConnectionID (c : defaultHubConnection) : string :=
  conn_ConnectionID (Conn c).

(** [c.context.Err()] *)
Definition context_Err (c : defaultHubConnection) : option error :=
  if context_done c then Some Canceled else None.

(** [c.abort()] then [atomic.SwapInt32(&c.Connected, 0)] *)
Definition Abort (c : defaultHubConnection) : defaultHubConnection :=
  set_Connected 0 (set_context_done true c).

(** ** Scheduling

    What can happen next while a call is racing its spawned goroutine: the
    goroutine runs up to its next channel operation, the caller runs its next
    statement (at a [select] with both cases ready the event says which case
    Go picked), or some other goroutine calls [Abort]. *)
Inductive event :=
| EvAttempt
| EvPickDone
| EvPickE
| EvCaller
| EvAbort.

#[global] Instance event_eq_dec : EqDecision event.
Proof. solve_decision. Defined.

(** ** [writeMessage] *)

(** The goroutine [e <- c.Protocol.WriteMessage(message, c.Connection)]. *)
Inductive writer :=
| Writing
| WriterDone.

(** Where the caller of [writeMessage] is. *)
Inductive write_caller :=
| WSelecting
| WDraining
| WReturned (err : option error).

Record write_state := {
  ws_hub : defaultHubConnection;
  ws_attempt : writer;
  ws_e : option (option error);
  ws_caller : write_caller
}.

Definition write_init (c : defaultHubConnection) : write_state :=
  {| ws_hub := c; ws_attempt := Writing; ws_e := None; ws_caller := WSelecting |}.

Definition write_step (message : outMessage) (ev : event) (s : write_state)
    : option write_state :=
  match ev with
  | EvAttempt =>
      match ws_attempt s with
      | Writing =>
          let '(err, w) :=
            WriteMessage (Protocol (ws_hub s)) message (wire (ws_hub s)) in
          Some {| ws_hub := set_wire w (ws_hub s); ws_attempt := WriterDone;
                  ws_e := Some err; ws_caller := ws_caller s |}
      | WriterDone => None
      end
  | EvPickDone =>
      match ws_caller s with
      | WSelecting =>
          if context_done (ws_hub s)
          then Some {| ws_hub := ws_hub s; ws_attempt := ws_attempt s;
                       ws_e := ws_e s; ws_caller := WDraining |}
          else None
      | _ => None
      end
  | EvPickE =>
      match ws_caller s, ws_e s with
      | WSelecting, Some err =>
          Some {| ws_hub := ws_hub s; ws_attempt := ws_attempt s;
                  ws_e := None; ws_caller := WReturned err |}
      | _, _ => None
      end
  | EvCaller =>
      match ws_caller s, ws_e s with
      | WDraining, Some _ =>
          Some {| ws_hub := ws_hub s; ws_attempt := ws_attempt s;
                  ws_e := None; ws_caller := WReturned (context_Err (ws_hub s)) |}
      | _, _ => None
      end
  | EvAbort =>
      Some {| ws_hub := Abort (ws_hub s); ws_attempt := ws_attempt s;
              ws_e := ws_e s; ws_caller := ws_caller s |}
  end.

Fixpoint write_run (message : outMessage) (evs : list event) (s : write_state)
    : option write_state :=
  match evs with
  | [] => Some s
  | ev :: evs' =>
      match write_step message ev s with
      | Some s' => write_run message evs' s'
      | None => None
      end
  end.

(** [writeMessage] under the schedule [evs]: the error it returns and the
    connection afterwards; [None] when [evs] is not a schedule of a call that
    returns. *)
Definition writeMessage (message : outMessage) (evs : list event)
    (c : defaultHubConnection) : option (option error * defaultHubConnection) :=
  match write_run message evs (write_init c) with
  | Some s =>
      match ws_caller s with
      | WReturned err => Some (err, ws_hub s)
      | _ => None
      end
  | None => None
  end.

(** ** [Receive] *)

(** The locals of the goroutine spawned by [Receive]. *)
Record reader := {
  buf : list Byte.byte;
  data : list Byte.byte;
  n : nat
}.

(** [var buf bytes.Buffer], [make([]byte, c.maximumReceiveMessageSize)],
    [var n int]: the locals of a goroutine that got past [make]. [make]
    panics for a negative size, and the program with it; these are the
    locals it has when [0 <= maximumReceiveMessageSize], and a statement that
    a call returns is made under that condition. *)
Definition reader_init (c : defaultHubConnection) : reader :=
  {| buf := [];
     data := replicate (Z.to_nat (maximumReceiveMessageSize c)) Byte.x00;
     n := 0 |}.

(** One turn of the [for] loop: either the locals for the next turn, or the
    two values the goroutine is about to send on [m] and on [e]. [take n data]
    is [data[:n]] for a [Read] that keeps to the slice it was given
    ([Read_keeps_to_the_slice] below); beyond the slice [data[:n]] panics. *)
Definition reader_turn (c : defaultHubConnection) (r : reader)
    : (reader + (option Msg * option error)) * W :=
  let '(message, complete, err, buf1) := ReadMessage (Protocol c) (buf r) in
  if negb complete then
    let buf2 := buf1 ++ take (n r) (data r) in
    let '(n', data', err', w') := Read (Conn c) (data r) (wire c) in
    match err' with
    | None => (inl {| buf := buf2 ++ take n' data'; data := data'; n := n' |}, w')
    | Some _ => (inr (None, err'), w')
    end
  else (inr (message, err), wire c).

(** The goroutine of [Receive]: in the loop, between its two sends, or past
    the [break]. *)
Inductive receiver :=
| Looping (r : reader)
| SendingE (err : option error)
| ReceiverDone.

(** Where the caller of [Receive] is: at the [select], at [<-e] of the first
    case, at [<-m] of the second case, or returned. *)
Inductive receive_caller :=
| RSelecting
| RDraining
| RTakingM (err : option error)
| RReturned (message : option Msg) (err : option error).

Record receive_state := {
  rs_hub : defaultHubConnection;
  rs_attempt : receiver;
  rs_m : option (option Msg);
  rs_e : option (option error);
  rs_caller : receive_caller
}.

Definition receive_init (c : defaultHubConnection) : receive_state :=
  {| rs_hub := c; rs_attempt := Looping (reader_init c);
     rs_m := None; rs_e := None; rs_caller := RSelecting |}.

Definition receive_step (ev : event) (s : receive_state) : option receive_state :=
  match ev with
  | EvAttempt =>
      match rs_attempt s with
      | Looping r =>
          match reader_turn (rs_hub s) r with
          | (inl r', w) =>
              Some {| rs_hub := set_wire w (rs_hub s); rs_attempt := Looping r';
                      rs_m := rs_m s; rs_e := rs_e s; rs_caller := rs_caller s |}
          | (inr (message, err), w) =>
              Some {| rs_hub := set_wire w (rs_hub s); rs_attempt := SendingE err;
                      rs_m := Some message; rs_e := rs_e s;
                      rs_caller := rs_caller s |}
          end
      | SendingE err =>
          Some {| rs_hub := rs_hub s; rs_attempt := ReceiverDone;
                  rs_m := rs_m s; rs_e := Some err; rs_caller := rs_caller s |}
      | ReceiverDone => None
      end
  | EvPickDone =>
      match rs_caller s with
      | RSelecting =>
          if context_done (rs_hub s)
          then Some {| rs_hub := rs_hub s; rs_attempt := rs_attempt s;
                       rs_m := rs_m s; rs_e := rs_e s; rs_caller := RDraining |}
          else None
      | _ => None
      end
  | EvPickE =>
      match rs_caller s, rs_e s with
      | RSelecting, Some err =>
          Some {| rs_hub := rs_hub s; rs_attempt := rs_attempt s;
                  rs_m := rs_m s; rs_e := None; rs_caller := RTakingM err |}
      | _, _ => None
      end
  | EvCaller =>
      match rs_caller s with
      | RDraining =>
          match rs_e s with
          | Some _ =>
              Some {| rs_hub := rs_hub s; rs_attempt := rs_attempt s;
                      rs_m := rs_m s; rs_e := None;
                      rs_caller := RReturned None (context_Err (rs_hub s)) |}
          | None => None
          end
      | RTakingM err =>
          match rs_m s with
          | Some message =>
              Some {| rs_hub := rs_hub s; rs_attempt := rs_attempt s;
                      rs_m := None; rs_e := rs_e s;
                      rs_caller := RReturned message err |}
          | None => None
          end
      | _ => None
      end
  | EvAbort =>
      Some {| rs_hub := Abort (rs_hub s); rs_attempt := rs_attempt s;
              rs_m := rs_m s; rs_e := rs_e s; rs_caller := rs_caller s |}
  end.

Fixpoint receive_run (evs : list event) (s : receive_state) : option receive_state :=
  match evs with
  | [] => Some s
  | ev :: evs' =>
      match receive_step ev s with
      | Some s' => receive_run evs' s'
      | None => None
      end
  end.

(** [Receive] under the schedule [evs]: message, error and the connection
    afterwards; [None] when [evs] is not a schedule of a call that returns. *)
Definition Receive (evs : list event) (c : defaultHubConnection)
    : option ((option Msg * option error) * defaultHubConnection) :=
  match receive_run evs (receive_init c) with
  | Some s =>
      match rs_caller s with
      | RReturned message err => Some ((message, err), rs_hub s)
      | _ => None
      end
  | None => None
  end.

(** [Close]: the store to [Connected] comes first, then the message is
    built, then written. *)
Definition Close (error : string) (evs : list event) (c : defaultHubConnection)
    : option ((closeMessage * option Hub.error) * defaultHubConnection) :=
  let c := set_Connected 0 c in
  let closeMessage :=
    {| cm_Type := 7; cm_Error := error; cm_AllowReconnect := true |} in
  match writeMessage (OutClose closeMessage) evs c with
  | Some (err, c') => Some ((closeMessage, err), c')
  | None => None
  end.

(** The typed senders: build the tagged struct, hand it to [writeMessage],
    return the struct with the error. *)
Definition SendInvocation (target : string) (args : list V) (evs : list event)
    (c : defaultHubConnection)
    : option ((sendOnlyHubInvocationMessage * option error) * defaultHubConnection) :=
  let invocationMessage :=
    {| im_Type := 1; im_Target := target; im_Arguments := args |} in
  match writeMessage (OutInvocation invocationMessage) evs c with
  | Some (err, c') => Some ((invocationMessage, err), c')
  | None => None
  end.

Definition StreamItem (id : string) (item : V) (evs : list event)
    (c : defaultHubConnection)
    : option ((streamItemMessage * option error) * defaultHubConnection) :=
  let streamItemMessage :=
    {| sm_Type := 2; sm_InvocationID := id; sm_Item := item |} in
  match writeMessage (OutStreamItem streamItemMessage) evs c with
  | Some (err, c') => Some ((streamItemMessage, err), c')
  | None => None
  end.

Definition Completion (id : string) (result : V) (error : string)
    (evs : list event) (c : defaultHubConnection)
    : option ((completionMessage * option Hub.error) * defaultHubConnection) :=
  let completionMessage :=
    {| co_Type := 3; co_InvocationID := id; co_Result := result;
       co_Error := error |} in
  match writeMessage (OutCompletion completionMessage) evs c with
  | Some (err, c') => Some ((completionMessage, err), c')
  | None => None
  end.

Definition Ping (evs : list event) (c : defaultHubConnection)
    : option ((hubMessage * option error) * defaultHubConnection) :=
  let pingMessage := {| hm_Type := 6 |} in
  match writeMessage (OutPing pingMessage) evs c with
  | Some (err, c') => Some ((pingMessage, err), c')
  | None => None
  end.

(** ** Callers of the interface

    A caller drives the connection through the methods of [hubConnection];
    the calls that race a goroutine carry their schedule. The items map is in
    the caller's hands: [map_store] is [m[k] = v] and [map_load] is [m[k]]
    through a reference. *)
Inductive call :=
| CallStart
| CallIsConnected
| CallConnectionID
| CallItems
| CallContext
| CallAbort
| CallClose (error : string) (evs : list event)
| CallReceive (evs : list event)
| CallSendInvocation (target : string) (args : list V) (evs : list event)
| CallStreamItem (id : string) (item : V) (evs : list event)
| CallCompletion (id : string) (result : V) (error : string) (evs : list event)
| CallPing (evs : list event).

Definition perform (k : call) (c : defaultHubConnection)
    : option defaultHubConnection :=
  match k with
  | CallStart => Some (Start c)
  | CallIsConnected | CallConnectionID | CallItems | CallContext => Some c
  | CallAbort => Some (Abort c)
  | CallClose error evs => snd <$> Close error evs c
  | CallReceive evs => snd <$> Receive evs c
  | CallSendInvocation target args evs => snd <$> SendInvocation target args evs c
  | CallStreamItem id item evs => snd <$> StreamItem id item evs c
  | CallCompletion id result error evs => snd <$> Completion id result error evs c
  | CallPing evs => snd <$> Ping evs c
  end.

Fixpoint perform_all (ks : list call) (c : defaultHubConnection)
    : option defaultHubConnection :=
  match ks with
  | [] => Some c
  | k :: ks' =>
      match perform k c with
      | Some c' => perform_all ks' c'
      | None => None
      end
  end.

(** The schedule a call carries, if it races a goroutine. *)
Definition call_schedule (k : call) : list event :=
  match k with
  | CallClose _ evs | CallReceive evs | CallSendInvocation _ _ evs
  | CallStreamItem _ _ evs | CallCompletion _ _ _ evs | CallPing evs => evs
  | _ => []
  end.

Definition map_store (r : ref) (k : string) (v : V) (h : Heap) : Heap :=
  <[r := <[k := v]> (default ∅ (h !! r))]> h.

Definition map_load (r : ref) (k : string) (h : Heap) : option V :=
  h !! r ≫= (.!! k).

(** Does the scope get cancelled, by this schedule, while the goroutine of
    [Receive] has not yet finished and the caller has not yet returned? *)
Definition receive_returned (s : receive_state) : bool :=
  match rs_caller s with RReturned _ _ => true | _ => false end.

Definition receive_in_flight (s : receive_state) : bool :=
  match rs_attempt s with ReceiverDone => false | _ => negb (receive_returned s) end.

Fixpoint receive_cancelled_in_flight (evs : list event) (s : receive_state) : bool :=
  match evs with
  | [] => false
  | ev :: evs' =>
      match ev with
      | EvAbort => receive_in_flight s && negb (context_done (rs_hub s))
      | _ => false
      end
      || match receive_step ev s with
         | Some s' => receive_cancelled_in_flight evs' s'
         | None => false
         end
  end.

Definition write_returned (s : write_state) : bool :=
  match ws_caller s with WReturned _ => true | _ => false end.

Definition write_in_flight (s : write_state) : bool :=
  match ws_attempt s with WriterDone => false | Writing => negb (write_returned s) end.

Fixpoint write_cancelled_in_flight (message : outMessage) (evs : list event)
    (s : write_state) : bool :=
  match evs with
  | [] => false
  | ev :: evs' =>
      match ev with
      | EvAbort => write_in_flight s && negb (context_done (ws_hub s))
      | _ => false
      end
      || match write_step message ev s with
         | Some s' => write_cancelled_in_flight message evs' s'
         | None => false
         end
  end.

(** ** What holds along a race *)

(** Everything that is true of a state of the race started on [c] with
    [message]: what the channel holds and what the peer has seen, by where
    the goroutine and the caller are. *)
Definition write_inv (c : defaultHubConnection) (message : outMessage)
    (s : write_state) : Prop :=
  Protocol (ws_hub s) = Protocol c ∧
  items (ws_hub s) = items c ∧
  let werr := fst (WriteMessage (Protocol c) message (wire c)) in
  let w' := snd (WriteMessage (Protocol c) message (wire c)) in
  match ws_attempt s, ws_caller s with
  | Writing, WSelecting => ws_e s = None ∧ wire (ws_hub s) = wire c
  | Writing, WDraining =>
      ws_e s = None ∧ wire (ws_hub s) = wire c ∧ context_done (ws_hub s) = true
  | Writing, WReturned _ => False
  | WriterDone, WSelecting => ws_e s = Some werr ∧ wire (ws_hub s) = w'
  | WriterDone, WDraining =>
      ws_e s = Some werr ∧ wire (ws_hub s) = w' ∧ context_done (ws_hub s) = true
  | WriterDone, WReturned err =>
      ws_e s = None ∧ wire (ws_hub s) = w' ∧
      (err = werr ∨ (err = Some Canceled ∧ context_done (ws_hub s) = true))
  end.

(** The caller went through the first case of the [select]. *)
Definition write_took_done (s : write_state) : Prop :=
  context_done (ws_hub s) = true ∧
  match ws_caller s with
  | WSelecting => False
  | WDraining => True
  | WReturned err => err = Some Canceled
  end.

(** The same for [Receive]. *)
Definition receive_inv (s : receive_state) : Prop :=
  match rs_attempt s with
  | Looping _ =>
      rs_m s = None ∧ rs_e s = None ∧
      match rs_caller s with
      | RSelecting => True
      | RDraining => context_done (rs_hub s) = true
      | _ => False
      end
  | SendingE _ =>
      is_Some (rs_m s) ∧ rs_e s = None ∧
      match rs_caller s with
      | RSelecting => True
      | RDraining => context_done (rs_hub s) = true
      | _ => False
      end
  | ReceiverDone =>
      match rs_caller s with
      | RSelecting => is_Some (rs_m s) ∧ is_Some (rs_e s)
      | RDraining =>
          is_Some (rs_m s) ∧ is_Some (rs_e s) ∧ context_done (rs_hub s) = true
      | RTakingM _ => is_Some (rs_m s) ∧ rs_e s = None
      | RReturned _ _ => rs_e s = None
      end
  end.

(** The caller of [Receive] went through the first case of the [select]. *)
Definition receive_took_done (s : receive_state) : Prop :=
  context_done (rs_hub s) = true ∧
  match rs_caller s with
  | RDraining => True
  | RReturned message err => message = None ∧ err = Some Canceled
  | _ => False
  end.

(** ** The read loop on its own *)

(** The [for] loop of the goroutine of [Receive], for at most [fuel] turns,
    from the locals [r] and the peer state [w]: the pair it sends on [m] and
    [e] and the peer state then, or [None] when the loop is still running
    after [fuel] turns. *)
Fixpoint reader_run (c : defaultHubConnection) (fuel : nat) (r : reader) (w : W)
    : option ((option Msg * option error) * W) :=
  match fuel with
  | O => None
  | S fuel' =>
      match reader_turn (set_wire w c) r with
      | (inl r', w') => reader_run c fuel' r' w'
      | (inr res, w') => Some (res, w')
      end
  end.

(** The goroutine of [Receive] is past its loop with the result [res], and
    the caller has not gone through the cancellation case. *)
Definition receive_settled (res : option Msg * option error) (s : receive_state)
    : Prop :=
  match rs_attempt s, rs_caller s with
  | SendingE err, RSelecting => rs_m s = Some res.1 ∧ rs_e s = None ∧ err = res.2
  | ReceiverDone, RSelecting => rs_m s = Some res.1 ∧ rs_e s = Some res.2
  | ReceiverDone, RTakingM err => rs_m s = Some res.1 ∧ err = res.2
  | ReceiverDone, RReturned message err => (message, err) = res
  | _, _ => False
  end.

(** The [io.Reader] contract on the slices the goroutine of [Receive] hands
    to [Read]: the count is within the slice ([0 <= n <= len data]) and the
    slice keeps its length. The goroutine takes [data[:n]], which panics
    beyond the slice. *)
Definition Read_keeps_to_the_slice (c : defaultHubConnection) : Prop :=
  ∀ (d : list Byte.byte) (w : W),
    length d = Z.to_nat (maximumReceiveMessageSize c) →
    (Read (Conn c) d w).1.1.1 ≤ length d ∧
    length (Read (Conn c) d w).1.1.2 = length d.

(** The schedule of a call that meets no cancellation: the goroutine runs
    [turns] turns of its loop (the last one sends on [m]) and then sends on
    [e], the [select] takes [e], the caller takes [m]. *)
Definition quietReceive (turns : nat) : list event :=
  replicate (S turns) EvAttempt ++ [EvPickE; EvCaller].

End HubConnection.

End Hub.

(** * HTTP connection: negotiation and transport selection *)
Module HTTP.

(** [url.Values] and [http.Header] are both [map[string][]string]. Header
    keys are in canonical form, as [Get], [Set] and [Del] make them; the keys
    this file uses ("Authorization", "Accept") are canonical as written. *)
Abbreviation Values := (gmap string (list string)).
Abbreviation Header := (gmap string (list string)).

(** [Get]: the first value of the key, or the empty string. *)
Definition Get (m : gmap string (list string)) (key : string) : string :=
  match m !! key with
  | Some (v :: _) => v
  | _ => EmptyString
  end.

(** [Set]: the key holds exactly this one value afterwards. *)
Definition Set_ (m : gmap string (list string)) (key value : string)
    : gmap string (list string) :=
  <[key := [value]]> m.

Definition Del (m : gmap string (list string)) (key : string)
    : gmap string (list string) :=
  delete key m.

(** [strings.ReplaceAll(s, old, new)] for a non-empty [old]: the matches are
    taken from the left and do not overlap. [skip] counts the bytes of the
    current match still to be dropped. *)
Fixpoint replace_from (skip : nat) (s old new : string) : string :=
  match s with
  | EmptyString => EmptyString
  | String ch rest =>
      match skip with
      | S k => replace_from k rest old new
      | O =>
          if String.prefix old s
          then new +:+ replace_from (String.length old - 1) rest old new
          else String ch (replace_from 0 rest old new)
      end
  end.

Definition ReplaceAll (s old new : string) : string := replace_from 0 s old new.

(** A [*url.URL]. The query is kept decoded: [Encode] and [Query] escape and
    unescape, and one after the other gives the same [url.Values] back.
    [Rest] is everything that is neither scheme nor query. *)
Record URL := {
  Scheme : string;
  Rest : string;
  RawQuery : Values
}.

Definition Query (u : URL) : Values := RawQuery u.
Definition Encode (q : Values) : Values := q.

Definition set_Scheme (s : string) (u : URL) : URL :=
  {| Scheme := s; Rest := Rest u; RawQuery := RawQuery u |}.

Definition set_RawQuery (q : Values) (u : URL) : URL :=
  {| Scheme := Scheme u; Rest := Rest u; RawQuery := q |}.

(** The text of a URL as the function builds it: the negotiate address, or
    a [*url.URL] rendered by [String()] (kept as the structure). *)
Inductive urlText :=
| Sprintf_negotiate (address : string)
| URL_String (u : URL).

(** Errors: what an external collaborator reported, or the error built at the
    status check by [fmt.Errorf("%v %v -> %v", ...)], kept as its three
    arguments ([text] and [rawQuery] are what [req.URL.String()] prints). *)
Inductive error :=
| External (what : string)
| StatusError (method : string) (text : urlText) (rawQuery : option string)
    (status : string).

(** A response body: [io.ReadAll] yields either the bytes or an error. *)
Record Body := {
  body_id : nat;
  body_ReadAll : error + list Byte.byte
}.

Record Response := {
  StatusCode : Z;
  Status : string;
  resp_Body : Body
}.

(** A [*http.Request]. [req_RawQuery] is [Some] once [req.URL.RawQuery] has
    been assigned; [req_Header] names the header map. *)
Record Request := {
  Method : string;
  req_URL : urlText;
  req_RawQuery : option string;
  req_Header : ref
}.

Definition set_req_RawQuery (q : string) (r : Request) : Request :=
  {| Method := Method r; req_URL := req_URL r; req_RawQuery := Some q;
     req_Header := req_Header r |}.

Definition set_req_Header (h : ref) (r : Request) : Request :=
  {| Method := Method r; req_URL := req_URL r; req_RawQuery := req_RawQuery r;
     req_Header := h |}.

(** What the function does to the outside, in order. A header map is
    recorded with the content it has at that moment, a round trip with what
    came back. *)
Inductive effect :=
| DoCalled (req : Request) (header : Header) (result : error + Response)
| BodyReadAll (b : Body)
| BodyClose (b : Body)
| DialCalled (u : URL) (header : option Header).

(** The store of header maps and the effects so far. *)
Record World := {
  store : gmap ref Header;
  effects : list effect
}.

Definition set_store (s : gmap ref Header) (w : World) : World :=
  {| store := s; effects := effects w |}.

Definition log (e : effect) (w : World) : World :=
  {| store := store w; effects := effects w ++ [e] |}.

(** The map a reference names ([nil] and unknown references read as empty). *)
Definition deref (w : World) (r : ref) : Header := default ∅ (store w !! r).

(** [func() http.Header]: a call returns a map, one it has just made or one
    that exists already. *)
Definition HeaderProvider := gmap ref Header -> ref * gmap ref Header.

(** The provider that builds a new map with the same content on every call. *)
Definition fresh_provider (h : Header) : HeaderProvider :=
  fun s => let r := fresh (dom s) in (r, <[r := h]> s).

(** The provider that hands out one and the same map on every call. *)
Definition shared_provider (r : ref) : HeaderProvider :=
  fun s => (r, s).

(** [Doer]: the request and its header content in, a response or an error out. *)
Definition Doer := Request -> Header -> error + Response.

Record httpConnection := {
  client : option Doer;
  headers : option HeaderProvider;
  queryString : option (unit -> string)
}.

Definition WithHTTPClient (client0 : Doer) (c : httpConnection)
    : httpConnection * option error :=
  ({| client := Some client0; headers := headers c; queryString := queryString c |},
   None).

Definition WithHTTPHeaders (headers0 : HeaderProvider) (c : httpConnection)
    : httpConnection * option error :=
  ({| client := client c; headers := Some headers0; queryString := queryString c |},
   None).

Definition WithQueryString (queryString0 : unit -> string) (c : httpConnection)
    : httpConnection * option error :=
  ({| client := client c; headers := headers c; queryString := Some queryString0 |},
   None).

(** Modelled from the spec: the type is declared outside the files at hand.
    One advertised transport with its transfer formats; a [nil] slice of
    formats is [None]. *)
Record availableTransport := {
  Transport : string;
  TransferFormats : option (list string)
}.

(** Modelled from the spec: the type is declared outside the files at hand;
    [ConnectionToken] and [ConnectionID] are the fields the constructor
    reads. *)
Record negotiateResponse := {
  ConnectionToken : string;
  ConnectionID : string;
  AvailableTransports : list availableTransport
}.

(** Modelled from the spec: [getTransferFormats] is declared outside the
    files at hand. The response lists the advertised transports, each with
    its transfer formats; the method gives the formats of the transport of
    that name and [nil] ([None]) when the name is not advertised. *)
Fixpoint findTransferFormats (ts : list availableTransport) (transportType : string)
    : option (list string) :=
  match ts with
  | [] => None
  | t :: ts' =>
      if decide (Transport t = transportType) then TransferFormats t
      else findTransferFormats ts' transportType
  end.

Definition getTransferFormats (nr : negotiateResponse) (transportType : string)
    : option (list string) :=
  findTransferFormats (AvailableTransports nr) transportType.

(** The [*websocket.Conn] a dial returns. *)
Definition WebSocket := nat.

Record DialOptions := { HTTPHeader : option ref }.

(** The [Connection] values the two constructors build. *)
Inductive Connection :=
| webSocketConnection (connectionID : string) (ws : WebSocket)
| clientSSEConnection (address connectionID : string) (body : Body).

(** The library functions the constructor calls. [http_NewRequest] gives the
    error of building a request, if any; [websocket_Dial] gets the URL and
    the header content of the options. *)
Record Env := {
  default_client : Doer;
  http_NewRequest : string -> urlText -> option error;
  json_Unmarshal : list Byte.byte -> error + negotiateResponse;
  url_Parse : string -> error + URL;
  websocket_Dial : URL -> option Header -> error + WebSocket;
  newClientSSEConnection : string -> string -> Body -> error + Connection
}.

(** Computations that read and write the world and may stop with an error. *)
Definition M (A : Type) : Type := World -> (error + A) * World.

Definition ret {A} (a : A) : M A := fun w => (inr a, w).
Definition fail {A} (e : error) : M A := fun w => (inl e, w).
Definition bind {A B} (m : M A) (k : A -> M B) : M B :=
  fun w =>
    match m w with
    | (inr a, w') => k a w'
    | (inl e, w') => (inl e, w')
    end.
Definition lift {A} (r : error + A) : M A := fun w => (r, w).

Notation "'do' x <- m ; k" := (bind m (fun x => k))
  (at level 10, x pattern, m at level 100, k at level 200).

(** [defer func() { _ = b.Close() }()] around the rest of the function. *)
Definition deferClose {A} (b : Body) (rest : M A) : M A :=
  fun w => let '(r, w') := rest w in (r, log (BodyClose b) w').

(** A call of the header provider. *)
Definition callHeaders (p : HeaderProvider) : M ref :=
  fun w => let '(r, s) := p (store w) in (inr r, set_store s w).

(** [headers.Del(key)] and [req.Header.Set(key, value)] through a reference.
    [headerSet] is the write into a map that was made, that is, into a
    reference of the store: [Set] on a [nil] map panics, and a statement
    about the request that follows is made for a map of the store. *)
Definition headerDel (r : ref) (key : string) : M unit :=
  fun w => (inr tt, set_store (<[r := Del (deref w r) key]> (store w)) w).

Definition headerSet (r : ref) (key value : string) : M unit :=
  fun w => (inr tt, set_store (<[r := Set_ (deref w r) key value]> (store w)) w).

Definition readHeader (r : ref) : M Header := fun w => (inr (deref w r), w).

(** [http.NewRequest]: the request comes with a header map of its own. *)
Definition NewRequest (env : Env) (method : string) (text : urlText) : M Request :=
  fun w =>
    match http_NewRequest env method text with
    | Some err => (inl err, w)
    | None =>
        let r := fresh (dom (store w)) in
        (inr {| Method := method; req_URL := text; req_RawQuery := None;
                req_Header := r |},
         set_store (<[r := ∅]> (store w)) w)
    end.

(** [client.Do(req)] *)
Definition Do (d : Doer) (req : Request) : M Response :=
  fun w =>
    let h := deref w (req_Header req) in
    let result := d req h in
    (result, log (DoCalled req h result) w).

(** [io.ReadAll(b)] *)
Definition ReadAll (b : Body) : M (list Byte.byte) :=
  fun w => (body_ReadAll b, log (BodyReadAll b) w).

(** [websocket.Dial(ctx, wsURL.String(), opts)] *)
Definition Dial (env : Env) (wsURL : URL) (opts : DialOptions) : M WebSocket :=
  fun w =>
    let h := deref w <$> HTTPHeader opts in
    (websocket_Dial env wsURL h, log (DialCalled wsURL h) w).

(** The loop over [options] (lines 56-62): [nil] entries are skipped, the
    first error ends the function. *)
Fixpoint applyOptions
    (options : list (option (httpConnection -> httpConnection * option error)))
    (httpConn : httpConnection) : error + httpConnection :=
  match options with
  | [] => inr httpConn
  | None :: rest => applyOptions rest httpConn
  | Some option :: rest =>
      match option httpConn with
      | (_, Some err) => inl err
      | (httpConn', None) => applyOptions rest httpConn'
      end
  end.

(** Lines 54-66: the options, then the default client when none was set. *)
Definition configure (env : Env)
    (options : list (option (httpConnection -> httpConnection * option error)))
    : error + httpConnection :=
  match applyOptions options
          {| client := None; headers := None; queryString := None |} with
  | inl err => inl err
  | inr httpConn =>
      match client httpConn with
      | None =>
          inr {| client := Some (default_client env); headers := headers httpConn;
                 queryString := queryString httpConn |}
      | Some _ => inr httpConn
      end
  end.

(** The client of a configured connection. *)
Definition clientOf (env : Env) (httpConn : httpConnection) : Doer :=
  default (default_client env) (client httpConn).

(** Lines 68-79, the negotiate request: POST to [address/negotiate], the
    query string and the headers as their providers give them now. *)
Definition negotiateRequest (env : Env) (httpConn : httpConnection) (address : string)
    : M Request :=
  do req <- NewRequest env "POST" (Sprintf_negotiate address);
  let req :=
    match queryString httpConn with
    | Some queryString => set_req_RawQuery (queryString tt) req
    | None => req
    end in
  match headers httpConn with
  | Some headers => do h <- callHeaders headers; ret (set_req_Header h req)
  | None => ret req
  end.

(** Lines 87-99: from the status check to the decoded negotiate response. *)
Definition decodeResponse (env : Env) (req : Request) (resp : Response)
    : M negotiateResponse :=
  if decide (StatusCode resp ≠ 200%Z)
  then fail (StatusError (Method req) (req_URL req) (req_RawQuery req) (Status resp))
  else
    do body <- ReadAll (resp_Body resp);
    lift (json_Unmarshal env body).

(** Lines 106-112, the [id] parameter: the token when there is one, else the
    id. *)
Definition withID (nr : negotiateResponse) (reqURL : URL) : URL :=
  let q := Query reqURL in
  let q :=
    if decide (ConnectionToken nr ≠ EmptyString)
    then Set_ q "id" (ConnectionToken nr)
    else Set_ q "id" (ConnectionID nr) in
  set_RawQuery (Encode q) reqURL.

(** Lines 119-148, the WebSockets case. [wsURL] and [reqURL] are one
    [*url.URL]; nothing reads [reqURL] afterwards. The provider is called
    twice: [headers] is the map of the first call, [opts.HTTPHeader] the map
    of the second. *)
Definition establishWebSocket (env : Env) (httpConn : httpConnection)
    (nr : negotiateResponse) (reqURL : URL) : M (option Connection) :=
  let wsURL := reqURL in
  let wsURL :=
    if decide (Scheme reqURL = "https")
    then set_Scheme "wss" wsURL
    else set_Scheme "ws" wsURL in
  do (opts, wsURL) <-
    match HTTP.headers httpConn with
    | Some provider =>
        do headers <- callHeaders provider;
        do h <- readHeader headers;
        do accessToken <-
          (if decide (Get h "Authorization" ≠ EmptyString)
           then
             do _ <- headerDel headers "Authorization";
             ret (ReplaceAll (Get h "Authorization") "Bearer " EmptyString)
           else ret EmptyString);
        do h2 <- callHeaders provider;
        let q := Query wsURL in
        let q := Set_ q "access_token" accessToken in
        ret ({| HTTPHeader := Some h2 |}, set_RawQuery (Encode q) wsURL)
    | None => ret ({| HTTPHeader := None |}, wsURL)
    end;
  do ws <- Dial env wsURL opts;
  ret (Some (webSocketConnection (ConnectionID nr) ws)).

(** Lines 151-169, the ServerSentEvents case. *)
Definition establishSSE (env : Env) (httpConn : httpConnection) (address : string)
    (nr : negotiateResponse) (reqURL : URL) : M (option Connection) :=
  do req <- NewRequest env "GET" (URL_String reqURL);
  do req <-
    match HTTP.headers httpConn with
    | Some provider => do h <- callHeaders provider; ret (set_req_Header h req)
    | None => ret req
    end;
  do _ <- headerSet (req_Header req) "Accept" "text/event-stream";
  do resp <- Do (clientOf env httpConn) req;
  do conn <-
    lift (newClientSSEConnection env address (ConnectionID nr) (resp_Body resp));
  ret (Some conn).

(** Lines 101-172, from parsing the address to the end: the transport is
    chosen and set up. [inr None] is the pair of a [nil] connection and a
    [nil] error. *)
Definition establish (env : Env) (httpConn : httpConnection) (address : string)
    (nr : negotiateResponse) : M (option Connection) :=
  do reqURL <- lift (url_Parse env address);
  let reqURL := withID nr reqURL in
  match getTransferFormats nr "WebSockets" with
  | Some _ => establishWebSocket env httpConn nr reqURL
  | None =>
      match getTransferFormats nr "ServerSentEvents" with
      | Some _ => establishSSE env httpConn address nr reqURL
      | None => ret None
      end
  end.

(** The whole function: configuration, the negotiate round trip, and under
    the deferred [Close] of the response body the decoding and the choice of
    transport. *)
Definition NewHTTPConnection (env : Env) (address : string)
    (options : list (option (httpConnection -> httpConnection * option error)))
    : M (option Connection) :=
  do httpConn <- lift (configure env options);
  do req <- negotiateRequest env httpConn address;
  do resp <- Do (clientOf env httpConn) req;
  deferClose (resp_Body resp)
    (do nr <- decodeResponse env req resp;
     establish env httpConn address nr).

(** ** Reading the effects *)

(** The effects a run added to those of the world it started in. *)
Definition effectsSince (w w' : World) : list effect :=
  drop (length (effects w)) (effects w').

Definition isNegotiatePOST (e : effect) : bool :=
  match e with
  | DoCalled req _ _ =>
      match req_URL req with
      | Sprintf_negotiate _ => bool_decide (Method req = "POST")
      | URL_String _ => false
      end
  | _ => false
  end.

Definition isReadAllOf (b : Body) (e : effect) : bool :=
  match e with
  | BodyReadAll b' => bool_decide (body_id b' = body_id b)
  | _ => false
  end.

Definition isCloseOf (b : Body) (e : effect) : bool :=
  match e with
  | BodyClose b' => bool_decide (body_id b' = body_id b)
  | _ => false
  end.

(** A transport is attempted by a dial or by a GET. *)
Definition isTransportAttempt (e : effect) : bool :=
  match e with
  | DialCalled _ _ => true
  | DoCalled req _ _ => bool_decide (Method req = "GET")
  | _ => false
  end.

(** The URL a transport attempt goes to. *)
Definition transportURL (e : effect) : option URL :=
  match e with
  | DialCalled u _ => Some u
  | DoCalled req _ _ =>
      match req_URL req with
      | URL_String u => Some u
      | Sprintf_negotiate _ => None
      end
  | _ => None
  end.

End HTTP.

(** * Concrete scenarios

    Small collaborators on which the definitions above can be run. *)
Module Scenario.

Import Hub.

(** A protocol whose buffer always holds the complete message [42] and whose
    writes succeed; a connection that delivers nothing. *)
Definition protocol : @HubProtocol string nat nat :=
  {| ReadMessage := fun b => ((Some 42, true, None), b);
     WriteMessage := fun _ w => (None, S w) |}.

Definition connection : @Connection nat :=
  {| Read := fun d w => ((0, d, None), w);
     conn_ConnectionID := "c-1" |}.

Definition hub : @defaultHubConnection string nat nat :=
  fst (newHubConnection connection protocol 8 0 ∅).

Definition hubHeap : gmap ref (gmap string string) :=
  snd (newHubConnection connection protocol 8 0 ∅).

(** [Abort] comes in right after the goroutine is spawned; the goroutine
    finishes before the caller reaches the [select], which picks [e]. *)
Definition lateSelect : list event :=
  [EvAbort; EvAttempt; EvAttempt; EvPickE; EvCaller].

Definition lateSelectWrite : list event :=
  [EvAbort; EvAttempt; EvPickE].

(** [Abort] comes in while the goroutine runs and the [select] takes the
    cancellation case; the caller then waits for the goroutine. *)
Definition doneFirst : list event :=
  [EvAbort; EvPickDone; EvAttempt; EvAttempt; EvCaller].

Definition doneFirstWrite : list event :=
  [EvAbort; EvPickDone; EvAttempt; EvCaller].

(** A call that meets no cancellation. *)
Definition plainWrite : list event := [EvAttempt; EvPickE].

Definition pingMessage : @outMessage string := OutPing {| hm_Type := 6 |}.

(** A connection whose first read fails, behind a protocol that finds no
    complete message in an empty buffer. *)
Definition hungryProtocol : @HubProtocol string nat nat :=
  {| ReadMessage := fun b => ((None, false, None), []);
     WriteMessage := fun _ w => (None, S w) |}.

Definition brokenConnection : @Connection nat :=
  {| Read := fun d w => ((0, d, Some (IOError "reset")), S w);
     conn_ConnectionID := "c-2" |}.

Definition brokenHub : @defaultHubConnection string nat nat :=
  fst (newHubConnection brokenConnection hungryProtocol 8 0 ∅).

(** A connection that delivers one byte per read, the bytes 1, 2, 3, ...;
    the peer state counts the reads. *)
Definition dripByte (w : nat) : Byte.byte :=
  match w with
  | 0 => Byte.x01
  | 1 => Byte.x02
  | _ => Byte.x03
  end.

Definition dripConnection : @Connection nat :=
  {| Read := fun d w => ((1, dripByte w :: drop 1 d, None), S w);
     conn_ConnectionID := "c-3" |}.

(** A protocol that takes the buffer out and finds message [7] when the
    buffer is exactly the bytes 1, 2; another that finds it in 2, 3. *)
Definition pairProtocol : @HubProtocol string nat nat :=
  {| ReadMessage := fun b =>
       match b with
       | [Byte.x01; Byte.x02] => ((Some 7, true, None), [])
       | _ => ((None, false, None), [])
       end;
     WriteMessage := fun _ w => (None, S w) |}.


Definition pairHub : @defaultHubConnection string nat nat :=
  fst (newHubConnection dripConnection pairProtocol 8 0 ∅).





(** A session: started, used, closed, aborted, started again. *)
Definition session : list (@call string) :=
  [CallStart; CallPing plainWrite; CallReceive (quietReceive 1);
   CallClose "bye" plainWrite; CallAbort; CallStart].

Import HTTP.

Definition hubURL : URL :=
  {| Scheme := "https"; Rest := "example.org/hub"; RawQuery := ∅ |}.

Definition negotiated (formats : list availableTransport) : negotiateResponse :=
  {| ConnectionToken := "tok"; ConnectionID := "cid"; AvailableTransports := formats |}.

Definition webSockets : availableTransport :=
  {| Transport := "WebSockets"; TransferFormats := Some ["Text"; "Binary"] |}.

Definition serverSentEvents : availableTransport :=
  {| Transport := "ServerSentEvents"; TransferFormats := Some ["Text"] |}.

Definition longPolling : availableTransport :=
  {| Transport := "LongPolling"; TransferFormats := Some ["Text"] |}.

Definition respond (code : Z) (status : string) : Doer :=
  fun _ _ =>
    inr {| StatusCode := code; Status := status;
           resp_Body := {| body_id := 1; body_ReadAll := inr [] |} |}.

Definition env (formats : list availableTransport) : Env :=
  {| default_client := respond 200 "200 OK";
     http_NewRequest := fun _ _ => None;
     json_Unmarshal := fun _ => inr (negotiated formats);
     url_Parse := fun _ => inr hubURL;
     websocket_Dial := fun _ _ => inr 7;
     newClientSSEConnection := fun a i b => inr (clientSSEConnection a i b) |}.

Definition world0 : World := {| store := ∅; effects := [] |}.

(** A provider written the usual way: a new header map on every call. *)
Definition bearer : HeaderProvider :=
  fresh_provider {["Authorization" := ["Bearer XYZ"]]}.

Definition plainHeaders : HeaderProvider :=
  fresh_provider {["X-Client" := ["go"]]}.

(** A world in which the caller holds one header map, at reference 5. *)
Definition callerHeaders : Header :=
  {["Authorization" := ["Bearer XYZ"]; "Accept" := ["text/html"]]}.

Definition world1 : World :=
  {| store := {[5%positive := callerHeaders]}; effects := [] |}.

(** A provider of basic credentials. *)
Definition basic : HeaderProvider :=
  fresh_provider {["Authorization" := ["Basic dXNlcjpwdw=="]]}.

(** An option that refuses. *)
Definition refuse (c : httpConnection) : httpConnection * option error :=
  (c, Some (External "refused")).

(** A client whose round trip fails. *)
Definition unreachable : Doer := fun _ _ => inl (External "unreachable").

End Scenario.

(** * Properties of the hub connection *)
Section HubFacts.

Import Hub.

Context {V Msg W : Type}.

Abbreviation hubT := (@defaultHubConnection V Msg W).
Abbreviation outT := (@outMessage V).
Abbreviation wstate := (@write_state V Msg W).
Abbreviation rstate := (@receive_state V Msg W).

(** Split on everything a successful step inspected. *)
Ltac split_step H :=
  simpl in H;
  repeat match type of H with
         | context [match ?x with _ => _ end] => destruct x eqn:?
         end;
  simplify_eq; simpl in *.

(** ** The race of [writeMessage] *)

Lemma write_inv_init (c : hubT) (message : outT) :
  write_inv c message (write_init c).
Proof. unfold write_inv; simpl; auto. Qed.

Lemma write_inv_step (c : hubT) (message : outT) (ev : event) (s s' : wstate) :
  write_inv c message s → write_step message ev s = Some s' →
  write_inv c message s'.
Proof.
  unfold write_inv. intros (HP & HI & Hinv) Hstep.
  destruct (WriteMessage (Protocol c) message (wire c)) as [werr w'] eqn:HW.
  destruct s as [h a e k]; simpl in *.
  destruct ev, a, k; split_step Hstep;
    rewrite ?HP, ?HI; intuition (simplify_eq; auto).
  all: try match goal with
           | Hw : wire _ = wire _, H : WriteMessage _ _ _ = _ |- _ =>
               rewrite HP, Hw, HW in H; by simplify_eq
           | Hd : context_done _ = true |- _ ∨ _ =>
               right; unfold context_Err; by rewrite Hd
           end.
Qed.

Lemma write_inv_run (c : hubT) (message : outT) (evs : list event) (s s' : wstate) :
  write_inv c message s → write_run message evs s = Some s' →
  write_inv c message s'.
Proof.
  revert s. induction evs as [|ev evs IH]; intros s Hinv Hrun; simpl in Hrun.
  - by simplify_eq.
  - destruct (write_step message ev s) eqn:Hstep; [|done].
    eapply IH; [|done]. by eapply write_inv_step.
Qed.

Lemma write_took_done_step (message : outT) (ev : event) (s s' : wstate) :
  write_took_done s → write_step message ev s = Some s' → write_took_done s'.
Proof.
  unfold write_took_done. destruct s as [h a e k]; simpl. intros [Hd Hk] Hstep.
  destruct ev, a, k; split_step Hstep; try done.
  all: unfold context_Err; by rewrite Hd.
Qed.

Lemma write_took_done_run (message : outT) (evs : list event) (s s' : wstate) :
  write_run message evs s = Some s' → EvPickDone ∈ evs → write_took_done s'.
Proof.
  revert s. induction evs as [|ev evs IH]; intros s Hrun Hin.
  - by apply elem_of_nil in Hin.
  - simpl in Hrun. destruct (write_step message ev s) as [s1|] eqn:Hstep; [|done].
    destruct (decide (ev = EvPickDone)) as [->|Hne].
    + assert (write_took_done s1) as Hs1.
      { unfold write_took_done. destruct s as [h a e k]; simpl in *.
        destruct k; try done. destruct (context_done h) eqn:Hd; by simplify_eq. }
      clear IH Hin Hstep. revert s1 Hs1 Hrun.
      induction evs as [|ev' evs IH']; intros s1 Hs1 Hrun; simpl in Hrun.
      * by simplify_eq.
      * destruct (write_step message ev' s1) eqn:Hstep'; [|done].
        eapply IH'; [|done]. by eapply write_took_done_step.
    + apply (IH s1 Hrun). apply elem_of_cons in Hin as [?|?]; done.
Qed.

(** What a step leaves alone, and what only [Abort] changes. *)
Lemma write_step_frame (message : outT) (ev : event) (s s' : wstate) :
  write_step message ev s = Some s' →
  items (ws_hub s') = items (ws_hub s) ∧
  (Connected (ws_hub s) = 0%Z → Connected (ws_hub s') = 0%Z) ∧
  (context_done (ws_hub s) = true → context_done (ws_hub s') = true) ∧
  (ev ≠ EvAbort →
   context_done (ws_hub s') = context_done (ws_hub s) ∧
   Connected (ws_hub s') = Connected (ws_hub s)) ∧
  (ev = EvPickDone → context_done (ws_hub s) = true).
Proof.
  destruct s as [h a e k]; simpl. intros Hstep.
  destruct ev, a, k; split_step Hstep; by repeat split.
Qed.

Lemma write_run_frame (message : outT) (evs : list event) (s s' : wstate) :
  write_run message evs s = Some s' →
  items (ws_hub s') = items (ws_hub s) ∧
  (Connected (ws_hub s) = 0%Z → Connected (ws_hub s') = 0%Z) ∧
  (context_done (ws_hub s) = true → context_done (ws_hub s') = true) ∧
  (EvAbort ∉ evs →
   context_done (ws_hub s') = context_done (ws_hub s) ∧
   Connected (ws_hub s') = Connected (ws_hub s) ∧
   (context_done (ws_hub s) = false → EvPickDone ∉ evs)).
Proof.
  revert s. induction evs as [|ev evs IH]; intros s Hrun; simpl in Hrun.
  - simplify_eq. repeat split; auto. intros _. apply not_elem_of_nil.
  - destruct (write_step message ev s) as [s1|] eqn:Hstep; [|done].
    destruct (write_step_frame _ _ _ _ Hstep) as (Hi & Hc & Hd & Hna & Hpd).
    destruct (IH _ Hrun) as (Hi' & Hc' & Hd' & Hna').
    split; [congruence|]. split; [auto|]. split; [auto|].
    intros Hnin. apply not_elem_of_cons in Hnin as [Hne Hnin].
    destruct (Hna (not_eq_sym Hne)) as [Hd1 Hc1].
    destruct (Hna' Hnin) as (Hd2 & Hc2 & Hp2).
    split; [congruence|]. split; [congruence|].
    intros Hf. apply not_elem_of_cons. split.
    + intros <-. specialize (Hpd eq_refl). congruence.
    + apply Hp2. congruence.
Qed.


(** ** The race of [Receive] *)

Lemma receive_inv_init (c : hubT) : receive_inv (receive_init c).
Proof. unfold receive_inv; simpl; auto. Qed.

Lemma receive_inv_step (ev : event) (s s' : rstate) :
  receive_inv s → receive_step ev s = Some s' → receive_inv s'.
Proof.
  unfold receive_inv. destruct s as [h a m e k]; simpl. intros Hinv Hstep.
  destruct ev, a, k; split_step Hstep; intuition (simplify_eq; eauto).
Qed.

Lemma receive_inv_run (evs : list event) (s s' : rstate) :
  receive_inv s → receive_run evs s = Some s' → receive_inv s'.
Proof.
  revert s. induction evs as [|ev evs IH]; intros s Hinv Hrun; simpl in Hrun.
  - by simplify_eq.
  - destruct (receive_step ev s) eqn:Hstep; [|done].
    eapply IH; [|done]. by eapply receive_inv_step.
Qed.

Lemma receive_took_done_step (ev : event) (s s' : rstate) :
  receive_took_done s → receive_step ev s = Some s' → receive_took_done s'.
Proof.
  unfold receive_took_done. destruct s as [h a m e k]; simpl.
  intros [Hd Hk] Hstep.
  destruct ev, a, k; split_step Hstep; try done.
  all: unfold context_Err; by rewrite Hd.
Qed.

Lemma receive_took_done_run (evs : list event) (s s' : rstate) :
  receive_run evs s = Some s' → EvPickDone ∈ evs → receive_took_done s'.
Proof.
  revert s. induction evs as [|ev evs IH]; intros s Hrun Hin.
  - by apply elem_of_nil in Hin.
  - simpl in Hrun. destruct (receive_step ev s) as [s1|] eqn:Hstep; [|done].
    destruct (decide (ev = EvPickDone)) as [->|Hne].
    + assert (receive_took_done s1) as Hs1.
      { unfold receive_took_done. destruct s as [h a m e k]; simpl in *.
        destruct k; try done. destruct (context_done h) eqn:Hd; by simplify_eq. }
      clear IH Hin Hstep. revert s1 Hs1 Hrun.
      induction evs as [|ev' evs IH']; intros s1 Hs1 Hrun; simpl in Hrun.
      * by simplify_eq.
      * destruct (receive_step ev' s1) eqn:Hstep'; [|done].
        eapply IH'; [|done]. by eapply receive_took_done_step.
    + apply (IH s1 Hrun). apply elem_of_cons in Hin as [?|?]; done.
Qed.

Lemma receive_step_frame (ev : event) (s s' : rstate) :
  receive_step ev s = Some s' →
  items (rs_hub s') = items (rs_hub s) ∧
  (Connected (rs_hub s) = 0%Z → Connected (rs_hub s') = 0%Z) ∧
  (context_done (rs_hub s) = true → context_done (rs_hub s') = true) ∧
  (ev ≠ EvAbort →
   context_done (rs_hub s') = context_done (rs_hub s) ∧
   Connected (rs_hub s') = Connected (rs_hub s)) ∧
  (ev = EvPickDone → context_done (rs_hub s) = true).
Proof.
  destruct s as [h a m e k]; simpl. intros Hstep.
  destruct ev, a, k; split_step Hstep; by repeat split.
Qed.

Lemma receive_run_frame (evs : list event) (s s' : rstate) :
  receive_run evs s = Some s' →
  items (rs_hub s') = items (rs_hub s) ∧
  (Connected (rs_hub s) = 0%Z → Connected (rs_hub s') = 0%Z) ∧
  (context_done (rs_hub s) = true → context_done (rs_hub s') = true) ∧
  (EvAbort ∉ evs →
   context_done (rs_hub s') = context_done (rs_hub s) ∧
   Connected (rs_hub s') = Connected (rs_hub s) ∧
   (context_done (rs_hub s) = false → EvPickDone ∉ evs)).
Proof.
  revert s. induction evs as [|ev evs IH]; intros s Hrun; simpl in Hrun.
  - simplify_eq. repeat split; auto. intros _. apply not_elem_of_nil.
  - destruct (receive_step ev s) as [s1|] eqn:Hstep; [|done].
    destruct (receive_step_frame _ _ _ Hstep) as (Hi & Hc & Hd & Hna & Hpd).
    destruct (IH _ Hrun) as (Hi' & Hc' & Hd' & Hna').
    split; [congruence|]. split; [auto|]. split; [auto|].
    intros Hnin. apply not_elem_of_cons in Hnin as [Hne Hnin].
    destruct (Hna (not_eq_sym Hne)) as [Hd1 Hc1].
    destruct (Hna' Hnin) as (Hd2 & Hc2 & Hp2).
    split; [congruence|]. split; [congruence|].
    intros Hf. apply not_elem_of_cons. split.
    + intros <-. specialize (Hpd eq_refl). congruence.
    + apply Hp2. congruence.
Qed.

(** ** No call is stuck *)

(** The goroutine of [writeMessage] always finishes, and then the caller can
    go on to its [return]. *)
Lemma write_progress (c : hubT) (message : outT) (evs : list event) (s : wstate) :
  write_run message evs (write_init c) = Some s →
  ∃ evs' s' err,
    write_run message evs' s = Some s' ∧ ws_caller s' = WReturned err.
Proof.
  intros Hrun.
  pose proof (write_inv_run _ _ _ _ _ (write_inv_init c message) Hrun)
    as (_ & _ & Hinv).
  destruct s as [h a e k]; simpl in *.
  destruct (WriteMessage (Protocol h) message (wire h)) as [werr w1] eqn:HW.
  destruct a, k; simpl in Hinv.
  - exists [EvAttempt; EvPickE]. simpl. rewrite HW. simpl. eauto.
  - exists [EvAttempt; EvCaller]. simpl. rewrite HW. simpl. eauto.
  - done.
  - destruct Hinv as [-> _]. exists [EvPickE]. simpl. eauto.
  - destruct Hinv as (-> & _). exists [EvCaller]. simpl. eauto.
  - exists []. simpl. eauto.
Qed.

(** Once the goroutine of [Receive] has left its loop, the caller can go on
    to its [return]. *)
Lemma receive_progress (c : hubT) (evs : list event) (s : rstate) :
  receive_run evs (receive_init c) = Some s →
  (∀ r, rs_attempt s ≠ Looping r) →
  ∃ evs' s' message err,
    receive_run evs' s = Some s' ∧ rs_caller s' = RReturned message err.
Proof.
  intros Hrun Hpast.
  pose proof (receive_inv_run _ _ _ (receive_inv_init c) Hrun) as Hinv.
  unfold receive_inv in Hinv. destruct s as [h a m e k]; simpl in *.
  destruct a as [r|err0|]; [by destruct (Hpast r)| |].
  - destruct Hinv as ([mv ->] & -> & Hk). destruct k; try done.
    + exists [EvAttempt; EvPickE; EvCaller]. simpl. eauto.
    + exists [EvAttempt; EvCaller]. simpl. eauto.
  - destruct k.
    + destruct Hinv as ([mv ->] & [ev ->]).
      exists [EvPickE; EvCaller]. simpl. eauto.
    + destruct Hinv as ([mv ->] & [ev ->] & _).
      exists [EvCaller]. simpl. eauto.
    + destruct Hinv as ([mv ->] & ->). exists [EvCaller]. simpl. eauto.
    + exists []. simpl. eauto.
Qed.

(** ** The calls a caller can make *)

Lemma writeMessage_frame (message : outT) (evs : list event) (c c' : hubT)
    (err : option error) :
  writeMessage message evs c = Some (err, c') →
  items c' = items c ∧
  (Connected c = 0%Z → Connected c' = 0%Z) ∧
  (EvAbort ∉ evs →
   context_done c' = context_done c ∧ Connected c' = Connected c).
Proof.
  unfold writeMessage. intros H.
  destruct (write_run message evs (write_init c)) as [s|] eqn:Hrun; [|done].
  destruct (ws_caller s); simplify_eq.
  destruct (write_run_frame _ _ _ _ Hrun) as (Hi & Hc & _ & Hna).
  simpl in *. repeat split; auto; by destruct (Hna H) as (? & ? & _).
Qed.

Lemma Receive_frame (evs : list event) (c c' : hubT)
    (r : option Msg * option error) :
  Receive evs c = Some (r, c') →
  items c' = items c ∧
  (EvAbort ∉ evs →
   context_done c' = context_done c ∧ Connected c' = Connected c).
Proof.
  unfold Receive. intros H.
  destruct (receive_run evs (receive_init c)) as [s|] eqn:Hrun; [|done].
  destruct (rs_caller s); simplify_eq.
  destruct (receive_run_frame _ _ _ Hrun) as (Hi & _ & _ & Hna).
  simpl in *. split; auto. intros Hn. by destruct (Hna Hn) as (? & ? & _).
Qed.

(** No method assigns [items]; the scope is touched by [Abort] alone. *)
Lemma perform_frame (k : call) (c c' : hubT) :
  perform k c = Some c' →
  items c' = items c ∧
  (k ≠ CallAbort → EvAbort ∉ call_schedule k → context_done c' = context_done c).
Proof.
  destruct k; simpl; intros H.
  1-6: simplify_eq; try (unfold Start; case_match); by split.
  all: try (cbv beta zeta delta
                 [Close SendInvocation StreamItem Completion Ping] in H;
            destruct (writeMessage _ evs _) as [[e1 c1]|] eqn:Hw;
            simpl in H; simplify_eq;
            destruct (writeMessage_frame _ _ _ _ _ Hw) as (Hi & _ & Hna);
            split; [by rewrite Hi|]; intros _ Hn;
            destruct (Hna Hn) as [Hd _]; by rewrite Hd).
  destruct (Receive evs c) as [[r1 c1]|] eqn:Hr; simpl in H; simplify_eq.
  destruct (Receive_frame _ _ _ _ Hr) as (Hi & Hna).
  split; [done|]. intros _ Hn. by destruct (Hna Hn) as [Hd _].
Qed.

Lemma perform_all_frame (ks : list call) (c c' : hubT) :
  perform_all ks c = Some c' →
  items c' = items c ∧
  (Forall (λ k, k ≠ CallAbort ∧ EvAbort ∉ call_schedule k) ks →
   context_done c' = context_done c).
Proof.
  revert c. induction ks as [|k ks IH]; intros c H; simpl in H.
  - by simplify_eq.
  - destruct (perform k c) as [c1|] eqn:Hk; [|done].
    destruct (perform_frame _ _ _ Hk) as [Hi Hd].
    destruct (IH _ H) as [Hi' Hd'].
    split; [congruence|]. intros HF. apply Forall_cons in HF as [[? ?] HF].
    rewrite Hd', Hd; auto.
Qed.

(** What [Close] returns, in terms of [writeMessage] and of the protocol. *)
Lemma Close_inv (errorText : string) (evs : list event) (c c' : hubT)
    (r : closeMessage * option error) :
  Close errorText evs c = Some (r, c') →
  let m := {| cm_Type := 7; cm_Error := errorText; cm_AllowReconnect := true |} in
  r.1 = m ∧
  writeMessage (OutClose m) evs (set_Connected 0 c) = Some (r.2, c') ∧
  Connected c' = 0%Z ∧
  wire c' = snd (WriteMessage (Protocol c) (OutClose m) (wire c)) ∧
  (r.2 = fst (WriteMessage (Protocol c) (OutClose m) (wire c)) ∨
   (r.2 = Some Canceled ∧ context_done c' = true)) ∧
  (EvAbort ∉ evs → context_done c' = context_done c).
Proof.
  unfold Close. intros H. cbv zeta.
  destruct (writeMessage _ evs _) as [[e1 c1]|] eqn:Hw; simplify_eq.
  simpl. split; [done|]. split; [done|].
  destruct (writeMessage_frame _ _ _ _ _ Hw) as (_ & Hc & Hna).
  split; [by apply Hc|].
  unfold writeMessage in Hw.
  destruct (write_run _ evs _) as [s|] eqn:Hrun; [|done].
  destruct (ws_caller s) eqn:Hk; simplify_eq.
  pose proof (write_inv_run _ _ _ _ _ (write_inv_init _ _) Hrun) as (_ & _ & Hinv).
  rewrite Hk in Hinv. simpl in Hinv.
  destruct (ws_attempt s); [done|]. destruct Hinv as (_ & Hwire & Herr).
  split; [done|]. split; [done|].
  intros Hn. by destruct (Hna Hn) as [Hd _].
Qed.

(** ** The claims *)

(** C2 (amended). Every [Receive] call and every [writeMessage] call returns
    only after the goroutine it spawned has finished, with channel [e]
    received from and empty; a call whose [select] takes the cancellation
    case returns a nil message (for [Receive]) and the error of the
    cancellation scope. Which case the [select] takes when both are ready is
    not fixed. No call is stuck: a [writeMessage] call can always go on to
    return, and so can a [Receive] call once its goroutine has left the read
    loop. *)
Theorem call_returns_after_its_attempt :
  (∀ (c : hubT) (evs : list event) (s : rstate) message err,
     receive_run evs (receive_init c) = Some s →
     rs_caller s = RReturned message err →
     rs_attempt s = ReceiverDone ∧ rs_e s = None ∧
     (EvPickDone ∈ evs →
      message = None ∧ err = Some Canceled ∧ context_done (rs_hub s) = true)) ∧
  (∀ (c : hubT) (out : outT) (evs : list event) (s : wstate) err,
     write_run out evs (write_init c) = Some s →
     ws_caller s = WReturned err →
     ws_attempt s = WriterDone ∧ ws_e s = None ∧
     (EvPickDone ∈ evs → err = Some Canceled ∧ context_done (ws_hub s) = true)) ∧
  (∀ (c : hubT) (evs : list event) (s : rstate),
     receive_run evs (receive_init c) = Some s →
     (∀ r, rs_attempt s ≠ Looping r) →
     ∃ evs' s' message err,
       receive_run evs' s = Some s' ∧ rs_caller s' = RReturned message err) ∧
  (∀ (c : hubT) (out : outT) (evs : list event) (s : wstate),
     write_run out evs (write_init c) = Some s →
     ∃ evs' s' err,
       write_run out evs' s = Some s' ∧ ws_caller s' = WReturned err).
Proof.
  split; [|split; [|split]];
    [| |exact receive_progress|intros c out evs s; apply write_progress].
  - intros c evs s message err Hrun Hk.
    pose proof (receive_inv_run _ _ _ (receive_inv_init c) Hrun) as Hinv.
    unfold receive_inv in Hinv. rewrite Hk in Hinv.
    destruct (rs_attempt s); try (by destruct Hinv as (_ & _ & [])).
    split; [done|]. split; [done|]. intros Hin.
    pose proof (receive_took_done_run _ _ _ Hrun Hin) as [Hd Ht].
    rewrite Hk in Ht. by destruct Ht as [-> ->].
  - intros c out evs s err Hrun Hk.
    pose proof (write_inv_run _ _ _ _ _ (write_inv_init c out) Hrun)
      as (_ & _ & Hinv).
    rewrite Hk in Hinv. destruct (ws_attempt s); [done|].
    destruct Hinv as (He & _ & Herr).
    split; [done|]. split; [done|]. intros Hin.
    pose proof (write_took_done_run _ _ _ _ Hrun Hin) as [Hd Ht].
    by rewrite Hk in Ht.
Qed.


(** C6. [Close] never cancels the cancellation scope: when no [Abort] runs
    during the call the context is after [Close] as it was before, and a
    later [Receive] on a scope that is not cancelled never takes the
    cancellation case of its [select]. No sequence of calls without [Abort]
    cancels the scope; [Abort] does. *)
Theorem Close_leaves_the_scope_alone :
  (∀ (c c' : hubT) (errorText : string) (evs : list event)
     (r : closeMessage * option error),
     Close errorText evs c = Some (r, c') → EvAbort ∉ evs →
     context_done c' = context_done c) ∧
  (∀ (c : hubT) (evs : list event) (s : rstate),
     context_done c = false → EvAbort ∉ evs →
     receive_run evs (receive_init c) = Some s →
     (EvPickDone ∉ evs) ∧ rs_caller s ≠ RDraining ∧
     context_done (rs_hub s) = false) ∧
  (∀ (c c' : hubT) (ks : list call),
     Forall (λ k, k ≠ CallAbort ∧ EvAbort ∉ call_schedule k) ks →
     perform_all ks c = Some c' → context_done c' = context_done c) ∧
  (∀ c : hubT, context_done (Abort c) = true).
Proof.
  split; [|split; [|split]].
  - intros c c' errorText evs r H Hn.
    destruct (Close_inv _ _ _ _ _ H) as (_ & _ & _ & _ & _ & Hna). auto.
  - intros c evs s Hf Hn Hrun.
    destruct (receive_run_frame _ _ _ Hrun) as (_ & _ & _ & Hna).
    destruct (Hna Hn) as (Hd & _ & Hp). simpl in *.
    split; [auto|]. split; [|congruence].
    intros Hk.
    pose proof (receive_inv_run _ _ _ (receive_inv_init c) Hrun) as Hinv.
    unfold receive_inv in Hinv. rewrite Hk in Hinv.
    assert (context_done (rs_hub s) = true) as Ht
      by (destruct (rs_attempt s); tauto).
    congruence.
  - intros c c' ks HF H. by apply (perform_all_frame _ _ _ H).
  - done.
Qed.

(** C8. The [Connected] flag is not latched: after [Abort] or [Close] has
    cleared it, [Start] sets it again and [IsConnected()] is true. *)
Theorem Start_after_terminal_reconnects :
  (∀ c : hubT,
     IsConnected (Abort c) = false ∧ IsConnected (Start (Abort c)) = true) ∧
  (∀ (c c' : hubT) (errorText : string) (evs : list event)
     (r : closeMessage * option error),
     Close errorText evs c = Some (r, c') →
     IsConnected c' = false ∧ IsConnected (Start c') = true).
Proof.
  split.
  - done.
  - intros c c' errorText evs r H.
    destruct (Close_inv _ _ _ _ _ H) as (_ & _ & Hc & _).
    unfold IsConnected, Start. by rewrite Hc.
Qed.

(** C10. The items map is made once, by the constructor, as a new empty map;
    [Items()] gives that same reference after any sequence of calls, no call
    copies or replaces it, and an entry stored through the reference one call
    returned is read through the reference any later call returns. *)
Theorem Items_is_one_map (connection : @Connection W)
    (protocol : @HubProtocol V Msg W) (size : Z) (w : W)
    (h : gmap ref (gmap string V)) :
  let c := (newHubConnection connection protocol size w h).1 in
  let h0 := (newHubConnection connection protocol size w h).2 in
  h !! Items c = None ∧
  h0 !! Items c = Some ∅ ∧
  (∀ r, r ≠ Items c → h0 !! r = h !! r) ∧
  (∀ (ks : list call) (c' : hubT),
     perform_all ks c = Some c' →
     Items c' = Items c ∧
     ∀ (h1 : gmap ref (gmap string V)) (k : string) (v : V),
       map_load (Items c') k (map_store (Items c) k v h1) = Some v).
Proof.
  simpl. unfold Items. simpl. repeat split.
  - apply not_elem_of_dom. unfold fresh_ref. apply is_fresh.
  - apply lookup_insert_eq.
  - intros r Hr. by apply lookup_insert_ne.
  - by destruct (perform_all_frame _ _ _ H) as [-> _].
  - intros h1 k v. destruct (perform_all_frame _ _ _ H) as [-> _]. simpl.
    unfold map_load, map_store. rewrite lookup_insert_eq. simpl.
    apply lookup_insert_eq.
Qed.

End HubFacts.

(** * Properties of the HTTP connection *)
Section HTTPFacts.

Import HTTP.

Implicit Types (env : Env) (httpConn : httpConnection) (nr : negotiateResponse)
  (w : World) (r : error + option Connection).

(** Run a monadic definition on a world. *)
Ltac run_monad :=
  unfold bind, ret, fail, lift, callHeaders, readHeader, headerDel, headerSet,
    Dial, Do, ReadAll, NewRequest, deferClose, log, set_store, deref in *;
  simpl in *.

(** ** The two transports *)

Lemma establishWebSocket_run env httpConn nr (reqURL : URL) w r w' :
  establishWebSocket env httpConn nr reqURL w = (r, w') →
  ∃ u hdr,
    effects w' = effects w ++ [DialCalled u hdr] ∧
    r = match websocket_Dial env u hdr with
        | inl err => inl err
        | inr ws => inr (Some (webSocketConnection (ConnectionID nr) ws))
        end ∧
    Rest u = Rest reqURL ∧
    Scheme u = (if decide (Scheme reqURL = "https") then "wss" else "ws") ∧
    match headers httpConn with
    | None => hdr = None ∧ RawQuery u = RawQuery reqURL
    | Some provider =>
        let h := default ∅ ((provider (store w)).2 !! (provider (store w)).1) in
        let present := bool_decide (Get h "Authorization" ≠ EmptyString) in
        let s2 :=
          if present
          then <[(provider (store w)).1 := Del h "Authorization"]>
                 (provider (store w)).2
          else (provider (store w)).2 in
        hdr = Some (default ∅ ((provider s2).2 !! (provider s2).1)) ∧
        RawQuery u =
          <["access_token" :=
              [if present
               then ReplaceAll (Get h "Authorization") "Bearer " EmptyString
               else EmptyString]]> (RawQuery reqURL)
    end.
Proof.
  unfold establishWebSocket. intros H.
  destruct (headers httpConn) as [provider|] eqn:Hh.
  - run_monad.
    destruct (provider (store w)) as [r1 s1] eqn:Hp1. simpl in *.
    destruct (decide (Get (default ∅ (s1 !! r1)) "Authorization" ≠ EmptyString))
      as [Hne|He].
    + rewrite bool_decide_eq_true_2 by done. simpl in *.
      destruct (provider (<[r1:=Del (default ∅ (s1 !! r1)) "Authorization"]> s1))
        as [r2 s3] eqn:Hp2. simpl in *.
      destruct (websocket_Dial env _ _) eqn:Hd; simplify_eq; simpl;
        eexists _, _; (split; [done|]); rewrite Hd;
        repeat split; by destruct (decide (Scheme reqURL = "https")).
    + rewrite bool_decide_eq_false_2 by done. simpl in *.
      destruct (provider s1) as [r2 s3] eqn:Hp2. simpl in *.
      destruct (websocket_Dial env _ _) eqn:Hd; simplify_eq; simpl;
        eexists _, _; (split; [done|]); rewrite Hd;
        repeat split; by destruct (decide (Scheme reqURL = "https")).
  - run_monad.
    destruct (websocket_Dial env _ _) eqn:Hd; simplify_eq; simpl;
      eexists _, _; (split; [done|]); rewrite Hd;
      repeat split; by destruct (decide (Scheme reqURL = "https")).
Qed.

Lemma establishSSE_run env httpConn (address : string) nr (reqURL : URL) w r w' :
  establishSSE env httpConn address nr reqURL w = (r, w') →
  (effects w' = effects w ∧ ∃ err, r = inl err) ∨
  ∃ req hd result,
    effects w' = effects w ++ [DoCalled req hd result] ∧
    Method req = "GET" ∧ req_URL req = URL_String reqURL ∧
    hd !! "Accept" = Some ["text/event-stream"] ∧
    r = match result with
        | inl err => inl err
        | inr resp =>
            match newClientSSEConnection env address (ConnectionID nr)
                    (resp_Body resp) with
            | inl err => inl err
            | inr conn => inr (Some conn)
            end
        end.
Proof.
  unfold establishSSE. intros H. run_monad.
  destruct (http_NewRequest env "GET" (URL_String reqURL)) eqn:Hn.
  { simplify_eq. left. eauto. }
  right. simpl in *.
  destruct (headers httpConn) as [provider|]; simpl in *;
    [destruct (provider _) as [r1 s1] eqn:Hp1; simpl in *|];
    rewrite ?lookup_insert_eq in H; simpl in H;
    (destruct (clientOf env httpConn _ _) as [err|resp] eqn:Hd;
     [|destruct (newClientSSEConnection env _ _ _) eqn:Hc]);
    simplify_eq; simpl;
    eexists _, _, _; (split; [done|]); simpl; rewrite ?Hc;
    repeat split; try (unfold Set_; apply lookup_insert_eq).
Qed.

(** The [id] parameter of the URL both transports start from. *)
Lemma withID_id nr (reqURL : URL) :
  Query (withID nr reqURL) !! "id" =
  Some [if decide (ConnectionToken nr ≠ EmptyString) then ConnectionToken nr
        else ConnectionID nr].
Proof.
  unfold withID, Query, Encode, Set_. simpl.
  destruct (decide (ConnectionToken nr ≠ EmptyString)); apply lookup_insert_eq.
Qed.

(** What [establish] adds to the effects: nothing, one dial or one GET. *)
Lemma establish_run env httpConn (address : string) nr w r w' :
  establish env httpConn address nr w = (r, w') →
  match url_Parse env address with
  | inl err => effects w' = effects w ∧ r = inl err
  | inr reqURL =>
      match getTransferFormats nr "WebSockets",
            getTransferFormats nr "ServerSentEvents" with
      | Some _, _ => establishWebSocket env httpConn nr (withID nr reqURL) w = (r, w')
      | None, Some _ =>
          establishSSE env httpConn address nr (withID nr reqURL) w = (r, w')
      | None, None => w' = w ∧ r = inr None
      end
  end.
Proof.
  unfold establish. intros H. unfold bind at 1, lift in H.
  destruct (url_Parse env address) as [err|reqURL]; [by simplify_eq|].
  destruct (getTransferFormats nr "WebSockets"); [done|].
  destruct (getTransferFormats nr "ServerSentEvents"); [done|].
  unfold ret in H. by simplify_eq.
Qed.

Lemma establish_effects env httpConn (address : string) nr w r w' :
  establish env httpConn address nr w = (r, w') →
  ∃ est, effects w' = effects w ++ est ∧
    (∀ conn, r = inr (Some conn) → est ≠ []) ∧
    (est = [] ∨
     ∃ e u, est = [e] ∧ isTransportAttempt e = true ∧
       isNegotiatePOST e = false ∧
       (∀ b, isCloseOf b e = false ∧ isReadAllOf b e = false) ∧
       transportURL e = Some u ∧
       Query u !! "id" =
         Some [if decide (ConnectionToken nr ≠ EmptyString) then ConnectionToken nr
               else ConnectionID nr]).
Proof.
  intros H. apply establish_run in H.
  destruct (url_Parse env address) as [err|reqURL].
  { destruct H as [He ->]. exists []. rewrite app_nil_r. by repeat split; auto. }
  destruct (getTransferFormats nr "WebSockets").
  - apply establishWebSocket_run in H as (u & hdr & He & -> & _ & _ & Hq).
    exists [DialCalled u hdr]. split; [done|]. split; [done|].
    right. exists (DialCalled u hdr), u. repeat split; try done.
    rewrite <- (withID_id nr reqURL). unfold Query.
    destruct (headers httpConn).
    + destruct Hq as [_ ->]. by rewrite lookup_insert_ne.
    + by destruct Hq as [_ ->].
  - destruct (getTransferFormats nr "ServerSentEvents").
    + apply establishSSE_run in H
        as [[He [err ->]]|(req & hd & result & He & Hm & Hu & _ & ->)].
      * exists []. rewrite app_nil_r. by repeat split; auto.
      * exists [DoCalled req hd result]. split; [done|]. split; [done|].
        right. exists (DoCalled req hd result), (withID nr reqURL).
        simpl. rewrite Hm, Hu. repeat split; try done. apply withID_id.
    + destruct H as [-> ->]. exists []. rewrite app_nil_r.
      split; [done|]. split; [|by left]. by intros conn [=].
Qed.

(** ** The negotiation *)

Lemma negotiateRequest_run env httpConn (address : string) w
    (res : error + Request) w1 :
  negotiateRequest env httpConn address w = (res, w1) →
  effects w1 = effects w ∧
  ∀ req, res = inr req →
    Method req = "POST" ∧ req_URL req = Sprintf_negotiate address.
Proof.
  unfold negotiateRequest. intros H. run_monad.
  destruct (http_NewRequest env "POST" (Sprintf_negotiate address)).
  { simplify_eq. split; [done|]. by intros req [=]. }
  simpl in *.
  destruct (headers httpConn) as [provider|]; simpl in *;
    [destruct (provider _) as [r1 s1]; simpl in *|];
    simplify_eq; (split; [done|]); intros req [= <-];
    by destruct (queryString httpConn).
Qed.

(** Every way through [NewHTTPConnection], by what it did to the outside. *)
Lemma NewHTTPConnection_run env (address : string)
    (options : list (option (httpConnection → httpConnection * option error)))
    w r w' :
  NewHTTPConnection env address options w = (r, w') →
  (effects w' = effects w ∧ ∃ err, r = inl err) ∨
  ∃ httpConn req hd result,
    configure env options = inr httpConn ∧
    Method req = "POST" ∧ req_URL req = Sprintf_negotiate address ∧
    result = clientOf env httpConn req hd ∧
    match result with
    | inl err => effects w' = effects w ++ [DoCalled req hd result] ∧ r = inl err
    | inr resp =>
        ∃ mid,
          effects w' =
            effects w ++
              DoCalled req hd result :: mid ++ [BodyClose (resp_Body resp)] ∧
          if decide (StatusCode resp = 200%Z) then
            match body_ReadAll (resp_Body resp) with
            | inl err => mid = [BodyReadAll (resp_Body resp)] ∧ r = inl err
            | inr bytes =>
                match json_Unmarshal env bytes with
                | inl err => mid = [BodyReadAll (resp_Body resp)] ∧ r = inl err
                | inr nr =>
                    ∃ w1 w2 est,
                      establish env httpConn address nr w1 = (r, w2) ∧
                      effects w2 = effects w1 ++ est ∧
                      mid = BodyReadAll (resp_Body resp) :: est
                end
            end
          else
            mid = [] ∧
            r = inl (StatusError (Method req) (req_URL req) (req_RawQuery req)
                       (Status resp))
    end.
Proof.
  unfold NewHTTPConnection. intros H. unfold bind at 1, lift in H.
  destruct (configure env options) as [err|httpConn] eqn:Hc.
  { simplify_eq. left. eauto. }
  unfold bind at 1 in H.
  destruct (negotiateRequest env httpConn address w) as [[err|req] w1] eqn:Hreq.
  { apply negotiateRequest_run in Hreq as [He _]. simplify_eq. left. eauto. }
  apply negotiateRequest_run in Hreq as [He Hreq].
  destruct (Hreq req eq_refl) as [Hm Hu]. clear Hreq.
  right. exists httpConn, req, (deref w1 (req_Header req)),
    (clientOf env httpConn req (deref w1 (req_Header req))).
  split; [done|]. split; [done|]. split; [done|]. split; [done|].
  unfold bind at 1, Do in H.
  destruct (clientOf env httpConn req (deref w1 (req_Header req)))
    as [err|resp] eqn:Hd.
  { simplify_eq. simpl. by rewrite He. }
  unfold deferClose, decodeResponse in H.
  destruct (decide (StatusCode resp ≠ 200%Z)) as [Hs|Hs].
  - unfold bind, fail in H. simpl in H. simplify_eq.
    exists []. simpl. rewrite He. split; [by rewrite <- app_assoc|].
    by rewrite decide_False by done.
  - apply dec_stable in Hs.
    unfold bind at 1 in H. unfold bind at 1 in H. unfold ReadAll at 1 in H.
    destruct (body_ReadAll (resp_Body resp)) as [err|bytes] eqn:Hb.
    { simplify_eq. exists [BodyReadAll (resp_Body resp)]. simpl. rewrite He.
      split; [by rewrite <- !app_assoc|]. by rewrite decide_True by done. }
    unfold lift in H.
    destruct (json_Unmarshal env bytes) as [err|nr] eqn:Hj.
    { simplify_eq. exists [BodyReadAll (resp_Body resp)]. simpl. rewrite He.
      split; [by rewrite <- !app_assoc|]. by rewrite decide_True by done. }
    destruct (establish env httpConn address nr _) as [r2 w2] eqn:Hest.
    simplify_eq.
    destruct (establish_effects _ _ _ _ _ _ _ Hest) as (est & Hw2 & _).
    exists (BodyReadAll (resp_Body resp) :: est). split.
    + simpl. rewrite Hw2. simpl. rewrite He. by rewrite <- !app_assoc.
    + rewrite decide_True by done.
      eexists _, _, est. by repeat split.
Qed.



Lemma effectsSince_app w w' (new : list effect) :
  effects w' = effects w ++ new → effectsSince w w' = new.
Proof. unfold effectsSince. intros ->. apply drop_app_length. Qed.

(** A dial in the effects of [NewHTTPConnection] is the dial of the
    WebSockets case, run on the configured connection and the parsed address. *)
Lemma NewHTTPConnection_dial env (address : string)
    (options : list (option (httpConnection → httpConnection * option error)))
    w r w' (u : URL) (hdr : option Header) :
  NewHTTPConnection env address options w = (r, w') →
  DialCalled u hdr ∈ effectsSince w w' →
  ∃ httpConn nr reqURL w1 w2,
    configure env options = inr httpConn ∧
    url_Parse env address = inr reqURL ∧
    is_Some (getTransferFormats nr "WebSockets") ∧
    establishWebSocket env httpConn nr (withID nr reqURL) w1 = (r, w2) ∧
    effects w2 = effects w1 ++ [DialCalled u hdr].
Proof.
  intros H Hin.
  apply NewHTTPConnection_run in H
    as [[He _]|(httpConn & req & hd & result & Hc & Hm & Hu & _ & Hres)].
  { rewrite (effectsSince_app w w' []) in Hin by (by rewrite app_nil_r).
    by apply elem_of_nil in Hin. }
  destruct result as [err|resp].
  { destruct Hres as [He _]. rewrite (effectsSince_app _ _ _ He) in Hin.
    by apply list_elem_of_singleton in Hin. }
  destruct Hres as (mid & He & Hmid).
  rewrite (effectsSince_app _ _ _ He) in Hin.
  assert (DialCalled u hdr ∈ mid) as Hemid.
  { apply elem_of_cons in Hin as [?|Hin]; [done|].
    apply elem_of_app in Hin as [?|Hin]; [done|].
    by apply list_elem_of_singleton in Hin. }
  destruct (decide (StatusCode resp = 200%Z)) as [Hs|Hs];
    [|destruct Hmid as [-> _]; by apply elem_of_nil in Hemid].
  destruct (body_ReadAll (resp_Body resp)) as [err|bytes] eqn:Hb.
  { destruct Hmid as [-> _]. by apply list_elem_of_singleton in Hemid. }
  destruct (json_Unmarshal env bytes) as [err|nr] eqn:Hj.
  { destruct Hmid as [-> _]. by apply list_elem_of_singleton in Hemid. }
  destruct Hmid as (w1 & w2 & est & Hest & He2 & ->).
  apply elem_of_cons in Hemid as [?|Hemid]; [done|].
  apply establish_run in Hest.
  destruct (url_Parse env address) as [err|reqURL] eqn:Hp.
  { destruct Hest as [He3 _]. rewrite He3 in He2.
    rewrite <- (app_nil_r (effects w1)) in He2 at 1.
    apply app_inv_head in He2. subst est. by apply elem_of_nil in Hemid. }
  destruct (getTransferFormats nr "WebSockets") as [fs|] eqn:Hws.
  - exists httpConn, nr, reqURL, w1, w2. repeat split; eauto.
    destruct (establishWebSocket_run _ _ _ _ _ _ _ Hest) as (u' & hdr' & He3 & _).
    rewrite He3 in He2. apply app_inv_head in He2. subst est.
    apply list_elem_of_singleton in Hemid. by rewrite Hemid.
  - exfalso. destruct (getTransferFormats nr "ServerSentEvents").
    + apply establishSSE_run in Hest
        as [[He3 _]|(req' & hd' & res' & He3 & _)]; rewrite He3 in He2.
      * rewrite <- (app_nil_r (effects w1)) in He2 at 1.
        apply app_inv_head in He2. subst est. by apply elem_of_nil in Hemid.
      * apply app_inv_head in He2. subst est.
        by apply list_elem_of_singleton in Hemid.
    + destruct Hest as [-> _].
      rewrite <- (app_nil_r (effects w1)) in He2 at 1.
      apply app_inv_head in He2. subst est. by apply elem_of_nil in Hemid.
Qed.

(** A provider that hands out one shared map: the deletion reaches the map
    the dial options get. *)
Lemma shared_provider_strips_Authorization env (client0 : option Doer)
    (qs : option (unit → string)) (r0 : ref) (hs : Header) nr (reqURL : URL)
    w r w' :
  store w !! r0 = Some hs →
  Get hs "Authorization" ≠ EmptyString →
  establishWebSocket env
    {| client := client0; headers := Some (shared_provider r0); queryString := qs |}
    nr reqURL w = (r, w') →
  ∃ u, effectsSince w w' = [DialCalled u (Some (Del hs "Authorization"))] ∧
       Del hs "Authorization" !! "Authorization" = None.
Proof.
  intros Hs Hne H.
  apply establishWebSocket_run in H as (u & hdr & He & _ & _ & _ & Hh).
  simpl in Hh. rewrite Hs in Hh. simpl in Hh.
  rewrite bool_decide_eq_true_2 in Hh by done.
  rewrite lookup_insert_eq in Hh. simpl in Hh. destruct Hh as [-> _].
  exists u. split; [by apply effectsSince_app|]. apply lookup_delete_eq.
Qed.

(** [strings.ReplaceAll] takes the leading "Bearer " off. *)
Lemma ReplaceAll_Bearer (tok : string) :
  ReplaceAll ("Bearer " +:+ tok) "Bearer " EmptyString =
  ReplaceAll tok "Bearer " EmptyString.
Proof. by destruct tok. Qed.

(** ** The claims *)

(** C1 (the code departs from it). [NewHTTPConnection] is configured with a
    header provider that builds its header map on each call and supplies
    [Authorization: Bearer tok]. Whenever it dials, the dial URL carries
    [access_token] (the token, less any "Bearer " inside it), but the header
    map in the dial options is the one of a second call of the provider and
    still carries the [Authorization] header: the deletion was done on the
    map of the first call. *)
Theorem dial_options_keep_Authorization env (address : string)
    (options : list (option (httpConnection → httpConnection * option error)))
    httpConn (hs : Header) (tok : string) w r w' (u : URL)
    (hdr : option Header) :
  configure env options = inr httpConn →
  headers httpConn = Some (fresh_provider hs) →
  hs !! "Authorization" = Some ["Bearer " +:+ tok] →
  NewHTTPConnection env address options w = (r, w') →
  DialCalled u hdr ∈ effectsSince w w' →
  hdr = Some hs ∧
  Get hs "Authorization" = "Bearer " +:+ tok ∧
  Query u !! "access_token" = Some [ReplaceAll tok "Bearer " EmptyString].
Proof.
  intros Hc Hh Hs H Hin.
  destruct (NewHTTPConnection_dial _ _ _ _ _ _ _ _ H Hin)
    as (httpConn' & nr & reqURL & w1 & w2 & Hc' & _ & _ & Hws & He).
  rewrite Hc in Hc'. injection Hc' as <-.
  apply establishWebSocket_run in Hws as (u' & hdr' & He' & _ & _ & _ & Hq).
  rewrite He in He'. apply app_inv_head in He'. injection He' as <- <-.
  assert (Get hs "Authorization" = "Bearer " +:+ tok) as HG
    by (unfold Get; by rewrite Hs).
  rewrite Hh in Hq. unfold fresh_provider in Hq. cbn [fst snd] in Hq.
  rewrite !lookup_insert_eq in Hq. cbn [default from_option id] in Hq.
  rewrite HG in Hq. rewrite bool_decide_eq_true_2 in Hq by done.
  destruct Hq as [-> Hq]. split; [done|]. split; [done|].
  unfold Query. rewrite Hq, lookup_insert_eq. by rewrite ReplaceAll_Bearer.
Qed.

(** C3. Whatever the negotiate response, the URL a transport is set up with
    has the query parameter [id] equal to [connectionToken] when that is not
    empty and to [connectionId] otherwise; a connection is only returned
    after such an attempt. In [NewHTTPConnection] every transport attempt
    follows a negotiate round trip with status 200 whose body decodes to the
    response that fixes the [id]. *)
Theorem transport_id_is_token_else_id :
  (∀ env httpConn (address : string) nr w r w',
     establish env httpConn address nr w = (r, w') →
     (∀ e, e ∈ effectsSince w w' → isTransportAttempt e = true →
        ∃ u, transportURL e = Some u ∧
          Query u !! "id" =
            Some [if decide (ConnectionToken nr ≠ EmptyString) then ConnectionToken nr
                  else ConnectionID nr]) ∧
     (∀ conn, r = inr (Some conn) →
        ∃ e, e ∈ effectsSince w w' ∧ isTransportAttempt e = true)) ∧
  (∀ env (address : string)
     (options : list (option (httpConnection → httpConnection * option error)))
     w r w' e,
     NewHTTPConnection env address options w = (r, w') →
     e ∈ effectsSince w w' → isTransportAttempt e = true →
     ∃ req hd resp bytes nr u,
       DoCalled req hd (inr resp) ∈ effectsSince w w' ∧
       isNegotiatePOST (DoCalled req hd (inr resp)) = true ∧
       StatusCode resp = 200%Z ∧
       body_ReadAll (resp_Body resp) = inr bytes ∧
       json_Unmarshal env bytes = inr nr ∧
       transportURL e = Some u ∧
       Query u !! "id" =
         Some [if decide (ConnectionToken nr ≠ EmptyString) then ConnectionToken nr
               else ConnectionID nr]).
Proof.
  split.
  - intros env httpConn address nr w r w' H.
    destruct (establish_effects _ _ _ _ _ _ _ H) as (est & He & Hconn & Hest).
    rewrite (effectsSince_app _ _ _ He). split.
    + intros e Hin Ht. destruct Hest as [->|(e' & u & -> & _ & _ & _ & Hu & Hq)].
      * by apply elem_of_nil in Hin.
      * apply list_elem_of_singleton in Hin as ->. eauto.
    + intros conn Hr. destruct Hest as [->|(e' & u & -> & Ht & _)].
      * by destruct (Hconn conn Hr).
      * exists e'. split; [apply list_elem_of_singleton; done|done].
  - intros env address options w r w' e H Hin Ht.
    apply NewHTTPConnection_run in H
      as [[He _]|(httpConn & req & hd & result & _ & Hm & Hu & _ & Hres)].
    { rewrite (effectsSince_app w w' []) in Hin by (by rewrite app_nil_r).
      by apply elem_of_nil in Hin. }
    destruct result as [err|resp].
    { destruct Hres as [He _]. rewrite (effectsSince_app _ _ _ He) in Hin.
      apply list_elem_of_singleton in Hin as ->. simpl in Ht.
      rewrite Hm in Ht. done. }
    destruct Hres as (mid & He & Hmid).
    rewrite (effectsSince_app _ _ _ He) in *.
    assert (e ∈ mid) as Hemid.
    { apply elem_of_cons in Hin as [->|Hin].
      - simpl in Ht. rewrite Hm in Ht. done.
      - apply elem_of_app in Hin as [?|Hin]; [done|].
        apply list_elem_of_singleton in Hin as ->. done. }
    destruct (decide (StatusCode resp = 200%Z)) as [Hs|Hs];
      [|destruct Hmid as [-> _]; by apply elem_of_nil in Hemid].
    destruct (body_ReadAll (resp_Body resp)) as [err|bytes] eqn:Hb.
    { destruct Hmid as [-> _]. apply list_elem_of_singleton in Hemid as ->. done. }
    destruct (json_Unmarshal env bytes) as [err|nr] eqn:Hj.
    { destruct Hmid as [-> _]. apply list_elem_of_singleton in Hemid as ->. done. }
    destruct Hmid as (w1 & w2 & est & Hest & He2 & ->).
    apply elem_of_cons in Hemid as [->|Hemid]; [done|].
    destruct (establish_effects _ _ _ _ _ _ _ Hest) as (est' & He3 & _ & Hsh).
    rewrite He2 in He3. apply app_inv_head in He3. subst est'.
    destruct Hsh as [->|(e' & u & -> & _ & _ & _ & Hu' & Hq)].
    { by apply elem_of_nil in Hemid. }
    apply list_elem_of_singleton in Hemid as ->.
    exists req, hd, resp, bytes, nr, u. split; [apply elem_of_cons; by left|].
    simpl. rewrite Hu, Hm. by repeat split.
Qed.

(** C4. When the negotiate response advertises neither WebSockets nor
    ServerSentEvents, the function returns a nil connection and a nil
    error and attempts no transport: from the parsed address on nothing
    is done to the outside, and the whole of [NewHTTPConnection], run
    against a server whose responses advertise neither, makes no dial and no
    GET, never returns a connection, and returns nil and nil once the
    negotiation itself has gone through. *)
Theorem no_supported_transport_gives_nil_nil :
  (∀ env httpConn (address : string) nr (reqURL : URL) w,
     getTransferFormats nr "WebSockets" = None →
     getTransferFormats nr "ServerSentEvents" = None →
     url_Parse env address = inr reqURL →
     establish env httpConn address nr w = (inr None, w)) ∧
  (∀ env (address : string)
     (options : list (option (httpConnection → httpConnection * option error)))
     w r w',
     (∀ bytes nr, json_Unmarshal env bytes = inr nr →
        getTransferFormats nr "WebSockets" = None ∧
        getTransferFormats nr "ServerSentEvents" = None) →
     NewHTTPConnection env address options w = (r, w') →
     Forall (λ e, isTransportAttempt e = false) (effectsSince w w') ∧
     (∀ conn, r ≠ inr (Some conn)) ∧
     (∀ req hd resp bytes nr reqURL,
        DoCalled req hd (inr resp) ∈ effectsSince w w' →
        StatusCode resp = 200%Z →
        body_ReadAll (resp_Body resp) = inr bytes →
        json_Unmarshal env bytes = inr nr →
        url_Parse env address = inr reqURL →
        r = inr None)).
Proof.
  split.
  - intros env httpConn address nr reqURL w Hws Hsse Hp.
    unfold establish, bind, lift, ret. by rewrite Hp, Hws, Hsse.
  - intros env address options w r w' Hnone H.
    apply NewHTTPConnection_run in H
      as [[He [err ->]]|(httpConn & req & hd & result & _ & Hm & Hu & _ & Hres)].
    { rewrite (effectsSince_app w w' []) by (by rewrite app_nil_r).
      split; [constructor|]. split; [done|].
      intros ? ? ? ? ? ? Hin. by apply elem_of_nil in Hin. }
    destruct result as [err|resp].
    { destruct Hres as [He ->]. rewrite (effectsSince_app _ _ _ He).
      split; [|split; [done|]].
      - repeat constructor. simpl. rewrite Hm. done.
      - intros ? ? ? ? ? ? Hin. apply list_elem_of_singleton in Hin. done. }
    destruct Hres as (mid & He & Hmid).
    rewrite (effectsSince_app _ _ _ He).
    assert (isTransportAttempt (DoCalled req hd (inr resp)) = false) as Hpost
      by (simpl; by rewrite Hm).
    destruct (decide (StatusCode resp = 200%Z)) as [Hs|Hs].
    2:{ destruct Hmid as [-> ->]. split; [by repeat constructor|].
        split; [done|]. intros req' hd' resp' ? ? ? Hin Hs'.
        apply elem_of_cons in Hin as [[= -> -> ->]|Hin]; [done|].
        apply list_elem_of_singleton in Hin. done. }
    destruct (body_ReadAll (resp_Body resp)) as [err|bytes] eqn:Hb.
    { destruct Hmid as [-> ->]. split; [by repeat constructor|].
      split; [done|]. intros req' hd' resp' ? ? ? Hin _ Hb'.
      apply elem_of_cons in Hin as [[= -> -> ->]|Hin]; [congruence|].
      apply elem_of_cons in Hin as [?|Hin]; [done|].
      apply list_elem_of_singleton in Hin. done. }
    destruct (json_Unmarshal env bytes) as [err|nr] eqn:Hj.
    { destruct Hmid as [-> ->]. split; [by repeat constructor|].
      split; [done|]. intros req' hd' resp' ? ? ? Hin _ Hb' Hj'.
      apply elem_of_cons in Hin as [[= -> -> ->]|Hin]; [congruence|].
      apply elem_of_cons in Hin as [?|Hin]; [done|].
      apply list_elem_of_singleton in Hin. done. }
    destruct Hmid as (w1 & w2 & est & Hest & He2 & ->).
    destruct (Hnone _ _ Hj) as [Hws Hsse].
    apply establish_run in Hest. rewrite Hws, Hsse in Hest.
    destruct (url_Parse env address) as [err|reqURL] eqn:Hp.
    + destruct Hest as [He3 ->]. rewrite He3 in He2.
      rewrite <- (app_nil_r (effects w1)) in He2 at 1.
      apply app_inv_head in He2. subst est.
      split; [by repeat constructor|]. split; [done|]. done.
    + destruct Hest as [-> ->].
      rewrite <- (app_nil_r (effects w1)) in He2 at 1.
      apply app_inv_head in He2. subst est.
      split; [by repeat constructor|]. split; [done|]. done.
Qed.

(** C7 (amended). When the negotiate POST obtains a response, the response
    body is closed before the function returns, whatever the outcome, as the
    last thing the function does and once only, and that POST is the only
    negotiate round trip. The body is read to its end when the status is 200;
    with any other status the function returns the status error without
    reading the body. *)
Theorem negotiate_body_closed_once env (address : string)
    (options : list (option (httpConnection → httpConnection * option error)))
    w r w' (req : Request) (hd : Header) (resp : Response) :
  NewHTTPConnection env address options w = (r, w') →
  DoCalled req hd (inr resp) ∈ effectsSince w w' →
  isNegotiatePOST (DoCalled req hd (inr resp)) = true →
  ∃ mid,
    effectsSince w w' =
      DoCalled req hd (inr resp) :: mid ++ [BodyClose (resp_Body resp)] ∧
    Forall (λ e, isNegotiatePOST e = false ∧
                 isCloseOf (resp_Body resp) e = false) mid ∧
    (StatusCode resp = 200%Z ↔ BodyReadAll (resp_Body resp) ∈ mid) ∧
    (StatusCode resp ≠ 200%Z →
     mid = [] ∧
     r = inl (StatusError (Method req) (req_URL req) (req_RawQuery req)
                (Status resp))).
Proof.
  intros H Hin Hpost.
  apply NewHTTPConnection_run in H
    as [[He _]|(httpConn & req0 & hd0 & result & _ & Hm & Hu & _ & Hres)].
  { rewrite (effectsSince_app w w' []) in Hin by (by rewrite app_nil_r).
    by apply elem_of_nil in Hin. }
  destruct result as [err|resp0].
  { destruct Hres as [He _]. rewrite (effectsSince_app _ _ _ He) in Hin.
    apply list_elem_of_singleton in Hin. done. }
  destruct Hres as (mid & He & Hmid).
  rewrite (effectsSince_app _ _ _ He) in *.
  assert (Forall (λ e, isNegotiatePOST e = false ∧
                       ∀ b, isCloseOf b e = false) mid ∧
          (StatusCode resp0 = 200%Z ↔ BodyReadAll (resp_Body resp0) ∈ mid) ∧
          (StatusCode resp0 ≠ 200%Z →
           mid = [] ∧
           r = inl (StatusError (Method req0) (req_URL req0) (req_RawQuery req0)
                      (Status resp0)))) as (Hfor & Hread & Hbad).
  { destruct (decide (StatusCode resp0 = 200%Z)) as [Hs|Hs].
    2:{ destruct Hmid as [-> ->]. split; [constructor|]. split; [|done].
        split; [done|]. intros Hx. by apply elem_of_nil in Hx. }
    assert (BodyReadAll (resp_Body resp0) ∈ mid ∧
            Forall (λ e, isNegotiatePOST e = false ∧
                         ∀ b, isCloseOf b e = false) mid) as [? ?].
    { destruct (body_ReadAll (resp_Body resp0)) as [err|bytes].
      { destruct Hmid as [-> _]. split; [apply elem_of_cons; by left|].
        by repeat constructor. }
      destruct (json_Unmarshal env bytes) as [err|nr].
      { destruct Hmid as [-> _]. split; [apply elem_of_cons; by left|].
        by repeat constructor. }
      destruct Hmid as (w1 & w2 & est & Hest & He2 & ->).
      split; [apply elem_of_cons; by left|].
      constructor; [done|].
      destruct (establish_effects _ _ _ _ _ _ _ Hest) as (est' & He3 & _ & Hsh).
      rewrite He2 in He3. apply app_inv_head in He3. subst est'.
      destruct Hsh as [->|(e' & u & -> & _ & Hnp & Hcl & _)]; [constructor|].
      repeat constructor; [done|]. intros b. by destruct (Hcl b). }
    split; [done|]. split; [done|]. done. }
  assert (DoCalled req hd (inr resp) = DoCalled req0 hd0 (inr resp0)) as Heq.
  { apply elem_of_cons in Hin as [?|Hin]; [done|].
    apply elem_of_app in Hin as [Hin|Hin].
    - rewrite Forall_forall in Hfor. destruct (Hfor _ Hin) as [Hn _]. congruence.
    - apply list_elem_of_singleton in Hin. done. }
  injection Heq as -> -> ->.
  exists mid. split; [done|]. split; [|done].
  eapply Forall_impl; [exact Hfor|]. intros e [? Hc]. split; [done|apply Hc].
Qed.

(** C9. When a header provider is configured, the maps it supplies have no
    [Authorization] header (or an empty one) and WebSockets is chosen, the
    dial URL gets the query parameter [access_token] with the empty string
    as its value: so it is for the dial [establish] makes on a world in
    which the provider supplies none, and for every dial of
    [NewHTTPConnection] with a provider that never supplies one. *)
Theorem access_token_empty_without_Authorization :
  (∀ env (client0 : option Doer) (provider : HeaderProvider)
     (qs : option (unit → string)) (address : string) nr (reqURL : URL) w r w',
     url_Parse env address = inr reqURL →
     is_Some (getTransferFormats nr "WebSockets") →
     Get (default ∅ ((provider (store w)).2 !! (provider (store w)).1))
       "Authorization" = EmptyString →
     establish env
       {| client := client0; headers := Some provider; queryString := qs |}
       address nr w = (r, w') →
     ∃ u hdr, effectsSince w w' = [DialCalled u hdr] ∧
              Query u !! "access_token" = Some [EmptyString] ∧
              Get (Query u) "access_token" = EmptyString) ∧
  (∀ env (address : string)
     (options : list (option (httpConnection → httpConnection * option error)))
     httpConn (provider : HeaderProvider) w r w' (u : URL) (hdr : option Header),
     configure env options = inr httpConn →
     headers httpConn = Some provider →
     (∀ s, Get (default ∅ ((provider s).2 !! (provider s).1))
             "Authorization" = EmptyString) →
     NewHTTPConnection env address options w = (r, w') →
     DialCalled u hdr ∈ effectsSince w w' →
     Query u !! "access_token" = Some [EmptyString] ∧
     Get (Query u) "access_token" = EmptyString).
Proof.
  split.
  - intros env client0 provider qs address nr reqURL w r w' Hp [fs Hws] Hno H.
    apply establish_run in H. rewrite Hp, Hws in H.
    apply establishWebSocket_run in H as (u & hdr & He & _ & _ & _ & Hh).
    cbn [headers] in Hh. cbv zeta in Hh. destruct Hh as [_ Hq].
    rewrite Hno in Hq. rewrite bool_decide_eq_false_2 in Hq by (by intros []).
    exists u, hdr. split; [by apply effectsSince_app|].
    unfold Get, Query. rewrite Hq, lookup_insert_eq. done.
  - intros env address options httpConn provider w r w' u hdr Hc Hh Hno H Hin.
    destruct (NewHTTPConnection_dial _ _ _ _ _ _ _ _ H Hin)
      as (httpConn' & nr & reqURL & w1 & w2 & Hc' & _ & _ & Hws & He).
    rewrite Hc in Hc'. injection Hc' as <-.
    apply establishWebSocket_run in Hws as (u' & hdr' & He' & _ & _ & _ & Hq).
    rewrite He in He'. apply app_inv_head in He'. injection He' as <- <-.
    rewrite Hh in Hq. cbv zeta in Hq. destruct Hq as [_ Hq].
    rewrite Hno in Hq. rewrite bool_decide_eq_false_2 in Hq by (by intros []).
    unfold Get, Query. rewrite Hq, lookup_insert_eq. done.
Qed.

End HTTPFacts.

(** * The claims on concrete runs *)
Section Runs.

Import Hub HTTP Scenario.

(** C2, as first stated, fails: [Abort] cancels the scope while the goroutine
    of [Receive] (of [writeMessage]) is still running, the goroutine finishes
    before the caller's [select] is decided, the [select] takes the result,
    and the call returns the message [42] with a nil error (a nil error for
    the write) instead of the cancellation error. *)
Lemma cancelled_call_may_return_the_result :
  receive_cancelled_in_flight lateSelect (receive_init hub) = true ∧
  fst <$> Receive lateSelect hub = Some (Some 42, None) ∧
  write_cancelled_in_flight pingMessage lateSelectWrite (write_init hub) = true ∧
  fst <$> writeMessage pingMessage lateSelectWrite hub = Some None.
Proof. repeat split. Qed.

Lemma call_returns_after_its_attempt_witness :
  (∃ s : receive_state,
     receive_run doneFirst (receive_init hub) = Some s ∧
     rs_caller s = RReturned None (Some Canceled) ∧
     EvPickDone ∈ doneFirst ∧
     rs_attempt s = ReceiverDone ∧ rs_e s = None) ∧
  (∃ s : write_state,
     write_run pingMessage doneFirstWrite (write_init hub) = Some s ∧
     ws_caller s = WReturned (Some Canceled) ∧
     EvPickDone ∈ doneFirstWrite ∧
     ws_attempt s = WriterDone ∧ ws_e s = None).
Proof.
  split.
  - eexists. split; [reflexivity|]. split; [reflexivity|].
    split; [set_solver|].
    pose proof (proj1 call_returns_after_its_attempt hub doneFirst _ _ _
                  eq_refl eq_refl) as (Ha & He & _).
    split; [exact Ha|exact He].
  - eexists. split; [reflexivity|]. split; [reflexivity|].
    split; [set_solver|].
    pose proof (proj1 (proj2 call_returns_after_its_attempt) hub pingMessage
                  doneFirstWrite _ _ eq_refl eq_refl) as (Ha & He & _).
    split; [exact Ha|exact He].
Defined.


Lemma Close_leaves_the_scope_alone_witness :
  ∃ c',
    snd <$> Close "boom" plainWrite hub = Some c' ∧
    (EvAbort ∉ plainWrite) ∧
    context_done c' = false.
Proof.
  eexists. split; [reflexivity|].
  assert (EvAbort ∉ plainWrite) as Hn.
  { intros Hin. repeat (apply elem_of_cons in Hin as [?|Hin]; [discriminate|]).
    by apply elem_of_nil in Hin. }
  split; [exact Hn|].
  exact (proj1 Close_leaves_the_scope_alone hub _ "boom" plainWrite _ eq_refl Hn).
Defined.

Lemma Start_after_terminal_reconnects_witness :
  ∃ c',
    snd <$> Close "boom" plainWrite (Start hub) = Some c' ∧
    IsConnected (Start hub) = true ∧
    IsConnected c' = false ∧ IsConnected (Start c') = true.
Proof.
  eexists. split; [reflexivity|]. split; [reflexivity|].
  exact (proj2 Start_after_terminal_reconnects (Start hub) _ "boom" plainWrite _
           eq_refl).
Defined.

Lemma Items_is_one_map_witness :
  ∃ c',
    perform_all [CallStart; CallItems; CallClose "bye" plainWrite; CallAbort;
                 CallStart] hub = Some c' ∧
    Items c' = Items hub ∧
    map_load (Items c') "user" (map_store (Items hub) "user" "ada" hubHeap) =
      Some "ada".
Proof.
  eexists. split; [reflexivity|].
  pose proof (Items_is_one_map connection protocol 8 0 ∅) as (_ & _ & _ & H).
  destruct (H [CallStart; CallItems; CallClose "bye" plainWrite; CallAbort;
               CallStart] _ eq_refl) as [Hi Hl].
  split; [exact Hi|]. exact (Hl hubHeap "user" "ada").
Defined.

(** C7, as first stated, fails: the server answers the negotiate POST with
    status 500; the function returns the status error and closes the body,
    and never reads it. *)
Lemma status_500_body_closed_unread :
  let run :=
    NewHTTPConnection (env [webSockets]) "https://example.org/hub"
      [Some (WithHTTPClient (respond 500 "500 Internal Server Error"))] world0 in
  let body := {| body_id := 1; body_ReadAll := inr [] |} in
  let req :=
    {| Method := "POST"; req_URL := Sprintf_negotiate "https://example.org/hub";
       req_RawQuery := None; req_Header := 1%positive |} in
  run.1 = inl (StatusError "POST" (Sprintf_negotiate "https://example.org/hub")
                 None "500 Internal Server Error") ∧
  effects run.2 =
    [DoCalled req ∅
       (inr {| StatusCode := 500; Status := "500 Internal Server Error";
               resp_Body := body |});
     BodyClose body] ∧
  filter (λ e, isReadAllOf body e = true) (effects run.2) = [].
Proof. vm_compute. repeat split. Qed.

Lemma dial_options_keep_Authorization_witness :
  let run :=
    NewHTTPConnection (env [webSockets; serverSentEvents])
      "https://example.org/hub" [Some (WithHTTPHeaders bearer)] world0 in
  let u :=
    {| Scheme := "wss"; Rest := "example.org/hub";
       RawQuery := <["access_token" := ["XYZ"]]> {["id" := ["tok"]]} |} in
  let hs : Header := {["Authorization" := ["Bearer XYZ"]]} in
  run.1 = inr (Some (webSocketConnection "cid" 7)) ∧
  DialCalled u (Some hs) ∈ effectsSince world0 run.2 ∧
  Get hs "Authorization" = "Bearer XYZ" ∧
  Query u !! "access_token" = Some ["XYZ"].
Proof.
  intros run u hs.
  assert (DialCalled u (Some hs) ∈ effectsSince world0 run.2) as Hin.
  { vm_compute. do 2 (apply elem_of_cons; right). apply elem_of_cons. by left. }
  split; [reflexivity|]. split; [exact Hin|].
  refine (proj2 (dial_options_keep_Authorization
                   (env [webSockets; serverSentEvents]) "https://example.org/hub"
                   [Some (WithHTTPHeaders bearer)] _ hs "XYZ" world0 run.1 run.2
                   u (Some hs) eq_refl eq_refl eq_refl _ Hin)).
  apply surjective_pairing.
Defined.

Lemma transport_id_is_token_else_id_witness :
  let httpConn :=
    {| client := None; headers := None; queryString := None |} in
  let run :=
    establish (env [serverSentEvents]) httpConn "https://example.org/hub"
      (negotiated [serverSentEvents]) world0 in
  ∃ e u,
    e ∈ effectsSince world0 run.2 ∧ isTransportAttempt e = true ∧
    transportURL e = Some u ∧ Query u !! "id" = Some ["tok"].
Proof.
  intros httpConn run.
  destruct (proj1 transport_id_is_token_else_id (env [serverSentEvents]) httpConn
              "https://example.org/hub" (negotiated [serverSentEvents]) world0
              run.1 run.2) as [Hid Hconn]; [apply surjective_pairing|].
  destruct (Hconn (clientSSEConnection "https://example.org/hub" "cid"
                     {| body_id := 1; body_ReadAll := inr [] |}))
    as (e & Hin & Ht); [reflexivity|].
  destruct (Hid e Hin Ht) as (u & Hu & Hq).
  exists e, u. repeat split; assumption.
Defined.

Lemma no_supported_transport_gives_nil_nil_witness :
  getTransferFormats (negotiated [longPolling]) "WebSockets" = None ∧
  getTransferFormats (negotiated [longPolling]) "ServerSentEvents" = None ∧
  establish (env [longPolling])
    {| client := None; headers := Some bearer; queryString := None |}
    "https://example.org/hub" (negotiated [longPolling]) world0 =
    (inr None, world0).
Proof.
  split; [reflexivity|]. split; [reflexivity|].
  apply (proj1 no_supported_transport_gives_nil_nil (env [longPolling]) _
           "https://example.org/hub" (negotiated [longPolling]) hubURL world0);
    reflexivity.
Defined.

Lemma negotiate_body_closed_once_witness :
  let run :=
    NewHTTPConnection (env [webSockets]) "https://example.org/hub" [] world0 in
  let body := {| body_id := 1; body_ReadAll := inr [] |} in
  let resp := {| StatusCode := 200; Status := "200 OK"; resp_Body := body |} in
  let req :=
    {| Method := "POST"; req_URL := Sprintf_negotiate "https://example.org/hub";
       req_RawQuery := None; req_Header := 1%positive |} in
  ∃ mid,
    effectsSince world0 run.2 = DoCalled req ∅ (inr resp) :: mid ++ [BodyClose body] ∧
    BodyReadAll body ∈ mid.
Proof.
  intros run body resp req.
  destruct (negotiate_body_closed_once (env [webSockets])
              "https://example.org/hub" [] world0 run.1 run.2 req ∅ resp)
    as (mid & He & _ & Hr & _).
  - apply surjective_pairing.
  - vm_compute. apply elem_of_cons. by left.
  - reflexivity.
  - exists mid. split; [exact He|]. by apply Hr.
Defined.

Lemma access_token_empty_without_Authorization_witness :
  let httpConn :=
    {| client := None; headers := Some plainHeaders; queryString := None |} in
  let run :=
    establish (env [webSockets]) httpConn "https://example.org/hub"
      (negotiated [webSockets]) world0 in
  ∃ u hdr,
    effectsSince world0 run.2 = [DialCalled u hdr] ∧
    Query u !! "access_token" = Some [EmptyString] ∧
    Get (Query u) "access_token" = EmptyString.
Proof.
  intros httpConn run.
  apply (proj1 access_token_empty_without_Authorization (env [webSockets]) None
           plainHeaders None "https://example.org/hub" (negotiated [webSockets])
           hubURL world0 run.1 run.2).
  - reflexivity.
  - by eexists.
  - reflexivity.
  - apply surjective_pairing.
Defined.

End Runs.

(** * More on the hub connection *)
Section HubMore.

Import Hub.

Context {V Msg W : Type}.

Abbreviation hubT := (@defaultHubConnection V Msg W).
Abbreviation outT := (@outMessage V).
Abbreviation wstate := (@write_state V Msg W).
Abbreviation rstate := (@receive_state V Msg W).

(** Split on everything a successful step inspected. *)
Ltac split_step H :=
  simpl in H;
  repeat match type of H with
         | context [match ?x with _ => _ end] => destruct x eqn:?
         end;
  simplify_eq; simpl in *.

(** ** What a race never assigns *)

Lemma write_step_identity (message : outT) (ev : event) (s s' : wstate) :
  write_step message ev s = Some s' →
  Protocol (ws_hub s') = Protocol (ws_hub s) ∧
  Conn (ws_hub s') = Conn (ws_hub s) ∧
  maximumReceiveMessageSize (ws_hub s') = maximumReceiveMessageSize (ws_hub s) ∧
  ((Connected (ws_hub s) = 0 ∨ Connected (ws_hub s) = 1)%Z →
   (Connected (ws_hub s') = 0 ∨ Connected (ws_hub s') = 1)%Z).
Proof.
  destruct s as [h a e k]; simpl. intros Hstep.
  destruct ev, a, k; split_step Hstep; repeat split; auto.
Qed.

Lemma write_run_identity (message : outT) (evs : list event) (s s' : wstate) :
  write_run message evs s = Some s' →
  Protocol (ws_hub s') = Protocol (ws_hub s) ∧
  Conn (ws_hub s') = Conn (ws_hub s) ∧
  maximumReceiveMessageSize (ws_hub s') = maximumReceiveMessageSize (ws_hub s) ∧
  ((Connected (ws_hub s) = 0 ∨ Connected (ws_hub s) = 1)%Z →
   (Connected (ws_hub s') = 0 ∨ Connected (ws_hub s') = 1)%Z).
Proof.
  revert s. induction evs as [|ev evs IH]; intros s Hrun; simpl in Hrun.
  - by simplify_eq.
  - destruct (write_step message ev s) as [s1|] eqn:Hstep; [|done].
    destruct (write_step_identity _ _ _ _ Hstep) as (HP & HC & HM & HK).
    destruct (IH _ Hrun) as (HP' & HC' & HM' & HK').
    repeat split; try congruence. auto.
Qed.

Lemma receive_step_identity (ev : event) (s s' : rstate) :
  receive_step ev s = Some s' →
  Protocol (rs_hub s') = Protocol (rs_hub s) ∧
  Conn (rs_hub s') = Conn (rs_hub s) ∧
  maximumReceiveMessageSize (rs_hub s') = maximumReceiveMessageSize (rs_hub s) ∧
  ((Connected (rs_hub s) = 0 ∨ Connected (rs_hub s) = 1)%Z →
   (Connected (rs_hub s') = 0 ∨ Connected (rs_hub s') = 1)%Z).
Proof.
  destruct s as [h a m e k]; simpl. intros Hstep.
  destruct ev, a, k; split_step Hstep; repeat split; auto.
Qed.

Lemma receive_run_identity (evs : list event) (s s' : rstate) :
  receive_run evs s = Some s' →
  Protocol (rs_hub s') = Protocol (rs_hub s) ∧
  Conn (rs_hub s') = Conn (rs_hub s) ∧
  maximumReceiveMessageSize (rs_hub s') = maximumReceiveMessageSize (rs_hub s) ∧
  ((Connected (rs_hub s) = 0 ∨ Connected (rs_hub s) = 1)%Z →
   (Connected (rs_hub s') = 0 ∨ Connected (rs_hub s') = 1)%Z).
Proof.
  revert s. induction evs as [|ev evs IH]; intros s Hrun; simpl in Hrun.
  - by simplify_eq.
  - destruct (receive_step ev s) as [s1|] eqn:Hstep; [|done].
    destruct (receive_step_identity _ _ _ Hstep) as (HP & HC & HM & HK).
    destruct (IH _ Hrun) as (HP' & HC' & HM' & HK').
    repeat split; try congruence. auto.
Qed.

(** ** The read loop and the race *)

(** A turn of the loop looks at the protocol, the connection and the peer,
    and at nothing else of the struct. *)
Lemma reader_turn_ext (h1 h2 : hubT) (r : reader) :
  Protocol h1 = Protocol h2 → Conn h1 = Conn h2 → wire h1 = wire h2 →
  reader_turn h1 r = reader_turn h2 r.
Proof. unfold reader_turn. by intros -> -> ->. Qed.

Lemma reader_run_ext (h1 h2 : hubT) (k : nat) (r : reader) (w : W) :
  Protocol h1 = Protocol h2 → Conn h1 = Conn h2 →
  reader_run h1 k r w = reader_run h2 k r w.
Proof.
  intros HP HC. revert r w. induction k as [|k IH]; intros r w; simpl; [done|].
  rewrite (reader_turn_ext (set_wire w h1) (set_wire w h2)) by done.
  destruct (reader_turn (set_wire w h2) r) as [[r'|res] w']; [apply IH|done].
Qed.

(** More fuel does not change the result of the loop. *)
Lemma reader_run_mono (c : hubT) (k k' : nat) (r : reader) (w : W)
    (x : (option Msg * option error) * W) :
  reader_run c k r w = Some x → k ≤ k' → reader_run c k' r w = Some x.
Proof.
  revert k' r w. induction k as [|k IH]; intros k' r w H Hle; [done|].
  destruct k' as [|k']; [lia|]. simpl in *.
  destruct (reader_turn (set_wire w c) r) as [[r'|res] w']; [|done].
  apply IH; [done|lia].
Qed.

Lemma reader_run_agree (c : hubT) (k k' : nat) (r : reader) (w : W)
    (x y : (option Msg * option error) * W) :
  reader_run c k r w = Some x → reader_run c k' r w = Some y → x = y.
Proof.
  intros Hx Hy.
  pose proof (reader_run_mono _ _ (k `max` k') _ _ _ Hx (Nat.le_max_l _ _)) as H1.
  pose proof (reader_run_mono _ _ (k `max` k') _ _ _ Hy (Nat.le_max_r _ _)) as H2.
  congruence.
Qed.

Lemma receive_settled_step (res : option Msg * option error) (ev : event)
    (s s' : rstate) :
  receive_settled res s → receive_step ev s = Some s' → ev ≠ EvPickDone →
  receive_settled res s' ∧ wire (rs_hub s') = wire (rs_hub s).
Proof.
  unfold receive_settled. destruct res as [rm re], s as [h a m e k]; simpl.
  intros Hs Hstep Hne.
  destruct ev, a, k; split_step Hstep; try done;
    intuition (simplify_eq; auto).
Qed.

Lemma receive_settled_run (res : option Msg * option error) (evs : list event)
    (s s' : rstate) :
  receive_settled res s → receive_run evs s = Some s' → EvPickDone ∉ evs →
  receive_settled res s' ∧ wire (rs_hub s') = wire (rs_hub s).
Proof.
  revert s. induction evs as [|ev evs IH]; intros s Hs Hrun Hn; simpl in Hrun.
  - by simplify_eq.
  - destruct (receive_step ev s) as [s1|] eqn:Hstep; [|done].
    apply not_elem_of_cons in Hn as [Hne Hn].
    destruct (receive_settled_step _ _ _ _ Hs Hstep (not_eq_sym Hne)) as [Hs1 Hw1].
    destruct (IH _ Hs1 Hrun Hn) as [Hs' Hw']. split; [done|congruence].
Qed.

(** From a state in the loop to a return that did not go through the
    cancellation case: the result is the one the loop computes. *)
Lemma receive_loop_run (c : hubT) (evs : list event) (s s' : rstate)
    (r : reader) message err :
  Protocol (rs_hub s) = Protocol c → Conn (rs_hub s) = Conn c →
  rs_attempt s = Looping r → rs_caller s = RSelecting →
  rs_m s = None → rs_e s = None →
  EvPickDone ∉ evs →
  receive_run evs s = Some s' →
  rs_caller s' = RReturned message err →
  ∃ k, reader_run c k r (wire (rs_hub s)) =
         Some ((message, err), wire (rs_hub s')).
Proof.
  revert s r. induction evs as [|ev evs IH];
    intros s r HP HC Ha Hk Hm He Hn Hrun Hret; simpl in Hrun.
  { simplify_eq. congruence. }
  destruct (receive_step ev s) as [s1|] eqn:Hstep; [|done].
  apply not_elem_of_cons in Hn as [Hne Hn].
  destruct s as [h a m e k]; simpl in *. subst a k m e.
  destruct ev; simpl in Hstep; try done.
  - destruct (reader_turn h r) as [[r'|[msg er]] w1] eqn:Ht; simplify_eq.
    + eapply (IH _ r') in Hrun as [k Hk]; [|done..]. simpl in Hk.
      exists (S k). simpl.
      rewrite (reader_turn_ext (set_wire (wire h) c) h) by done.
      by rewrite Ht.
    + destruct (receive_settled_run (msg, er) evs
                  {| rs_hub := set_wire w1 h; rs_attempt := SendingE er;
                     rs_m := Some msg; rs_e := None;
                     rs_caller := RSelecting |} s') as [Hs Hw];
        [by unfold receive_settled|done|done|].
      unfold receive_settled in Hs. rewrite Hret in Hs.
      destruct (rs_attempt s'); try done. simplify_eq.
      exists 1. simpl.
      rewrite (reader_turn_ext (set_wire (wire h) c) h) by done.
      rewrite Ht. simpl in Hw. by rewrite Hw.
  - simplify_eq.
    eapply (IH _ r) in Hrun as [k Hk]; [|done..]. by exists k.
Qed.

(** When the loop ends, the schedule without cancellation is a schedule of
    the call and returns the result of the loop. *)
Lemma receive_quiet_run (k : nat) (s : rstate) (r : reader)
    (res : option Msg * option error) (w' : W) :
  rs_attempt s = Looping r → rs_caller s = RSelecting →
  rs_m s = None → rs_e s = None →
  reader_run (rs_hub s) k r (wire (rs_hub s)) = Some (res, w') →
  ∃ turns,
    receive_run (quietReceive turns) s =
      Some {| rs_hub := set_wire w' (rs_hub s); rs_attempt := ReceiverDone;
              rs_m := None; rs_e := None;
              rs_caller := RReturned res.1 res.2 |}.
Proof.
  revert s r. induction k as [|k IH]; intros s r Ha Hk Hm He Hrun; [done|].
  destruct s as [h a m e c0]. simpl in Ha, Hk, Hm, He, Hrun.
  subst a c0 m e.
  rewrite (reader_turn_ext (set_wire (wire h) h) h) in Hrun by done.
  destruct (reader_turn h r) as [[r'|[msg er]] w1] eqn:Ht.
  - destruct (IH {| rs_hub := set_wire w1 h; rs_attempt := Looping r';
                    rs_m := None; rs_e := None; rs_caller := RSelecting |} r')
      as [turns Hq]; try done.
    { cbn [rs_hub]. by rewrite (reader_run_ext _ h) by done. }
    exists (S turns).
    change (quietReceive (S turns)) with (EvAttempt :: quietReceive turns).
    cbn [receive_run receive_step rs_attempt rs_hub rs_m rs_e rs_caller].
    rewrite Ht. exact Hq.
  - simplify_eq. exists 1. unfold quietReceive.
    cbn [replicate app receive_run receive_step rs_attempt rs_hub rs_m rs_e
         rs_caller].
    by rewrite Ht.
Qed.

(** ** [writeMessage] and the calls built on it *)

(** A call that did not go through the cancellation case returns the error of
    the protocol's write. *)
Lemma write_via_e_run (c : hubT) (out : outT) (evs : list event) (s s' : wstate) :
  write_inv c out s →
  match ws_caller s with
  | WSelecting => True
  | WDraining => False
  | WReturned err => err = fst (WriteMessage (Protocol c) out (wire c))
  end →
  EvPickDone ∉ evs →
  write_run out evs s = Some s' →
  match ws_caller s' with
  | WSelecting => True
  | WDraining => False
  | WReturned err => err = fst (WriteMessage (Protocol c) out (wire c))
  end.
Proof.
  revert s. induction evs as [|ev evs IH]; intros s Hinv Hvia Hn Hrun;
    simpl in Hrun.
  { by simplify_eq. }
  destruct (write_step out ev s) as [s1|] eqn:Hstep; [|done].
  apply not_elem_of_cons in Hn as [Hne Hn].
  apply (IH s1); [by eapply write_inv_step| |done|done].
  destruct Hinv as (_ & _ & Hinv).
  destruct s as [h a e k]; simpl in *.
  destruct ev, a, k; split_step Hstep; try done; intuition congruence.
Qed.

Lemma writeMessage_inv (c c' : hubT) (out : outT) (evs : list event)
    (err : option error) :
  writeMessage out evs c = Some (err, c') →
  Protocol c' = Protocol c ∧ Conn c' = Conn c ∧
  maximumReceiveMessageSize c' = maximumReceiveMessageSize c ∧
  items c' = items c ∧
  wire c' = snd (WriteMessage (Protocol c) out (wire c)) ∧
  (err = fst (WriteMessage (Protocol c) out (wire c)) ∨
   (err = Some Canceled ∧ context_done c' = true)) ∧
  (EvPickDone ∉ evs → err = fst (WriteMessage (Protocol c) out (wire c))) ∧
  ((Connected c = 0 ∨ Connected c = 1)%Z →
   (Connected c' = 0 ∨ Connected c' = 1)%Z) ∧
  (context_done c = true → context_done c' = true) ∧
  (EvAbort ∉ evs →
   Connected c' = Connected c ∧ context_done c' = context_done c ∧
   (context_done c = false →
    err = fst (WriteMessage (Protocol c) out (wire c)))).
Proof.
  unfold writeMessage. intros H.
  destruct (write_run out evs (write_init c)) as [s|] eqn:Hrun; [|done].
  destruct (ws_caller s) eqn:Hk; simplify_eq.
  destruct (write_run_identity _ _ _ _ Hrun) as (HP & HC & HM & HK).
  destruct (write_run_frame _ _ _ _ Hrun) as (Hi & _ & Hmono & Hna).
  pose proof (write_inv_run _ _ _ _ _ (write_inv_init c out) Hrun)
    as (_ & _ & Hinv).
  rewrite Hk in Hinv. destruct (ws_attempt s); [done|].
  destruct Hinv as (_ & Hw & Herr). simpl in *.
  assert (EvPickDone ∉ evs →
          err = fst (WriteMessage (Protocol c) out (wire c))) as Hvia.
  { intros Hn.
    pose proof (write_via_e_run c out evs (write_init c) s
                  (write_inv_init c out) I Hn Hrun) as Hv.
    by rewrite Hk in Hv. }
  repeat split; try done.
  - by destruct (Hna H) as (? & ? & _).
  - by destruct (Hna H) as (? & ? & _).
  - intros Hf. destruct (Hna H) as (_ & _ & Hp). auto.
Qed.

(** What a call keeps: the collaborators and the size for good, [Connected]
    within 0 and 1, the scope cancelled once it is. *)
Lemma Receive_keeps (evs : list event) (c c' : hubT)
    (r : option Msg * option error) :
  Receive evs c = Some (r, c') →
  Protocol c' = Protocol c ∧ Conn c' = Conn c ∧
  maximumReceiveMessageSize c' = maximumReceiveMessageSize c ∧
  ((Connected c = 0 ∨ Connected c = 1)%Z →
   (Connected c' = 0 ∨ Connected c' = 1)%Z) ∧
  (context_done c = true → context_done c' = true).
Proof.
  unfold Receive. intros H.
  destruct (receive_run evs (receive_init c)) as [s|] eqn:Hrun; [|done].
  destruct (rs_caller s); simplify_eq.
  destruct (receive_run_identity _ _ _ Hrun) as (HP & HC & HM & HK).
  destruct (receive_run_frame _ _ _ Hrun) as (_ & _ & Hmono & _).
  by repeat split.
Qed.

Lemma perform_keeps (k : call) (c c' : hubT) :
  perform k c = Some c' →
  Protocol c' = Protocol c ∧ Conn c' = Conn c ∧
  maximumReceiveMessageSize c' = maximumReceiveMessageSize c ∧
  ((Connected c = 0 ∨ Connected c = 1)%Z →
   (Connected c' = 0 ∨ Connected c' = 1)%Z) ∧
  (context_done c = true → context_done c' = true).
Proof.
  destruct k; simpl; intros H.
  1-6: simplify_eq; try (unfold Start; case_match); repeat split; auto.
  all: try (cbv beta zeta delta
                 [Close SendInvocation StreamItem Completion Ping] in H;
            destruct (writeMessage _ evs _) as [[e1 c1]|] eqn:Hw;
            simpl in H; simplify_eq;
            destruct (writeMessage_inv _ _ _ _ _ Hw)
              as (HP & HC & HM & _ & _ & _ & _ & HK & Hmono & _);
            repeat split; auto).
  destruct (Receive evs c) as [[r1 c1]|] eqn:Hr; simpl in H; simplify_eq.
  by apply (Receive_keeps _ _ _ _ Hr).
Qed.

Lemma perform_all_keeps (ks : list call) (c c' : hubT) :
  perform_all ks c = Some c' →
  Protocol c' = Protocol c ∧ Conn c' = Conn c ∧
  maximumReceiveMessageSize c' = maximumReceiveMessageSize c ∧
  ((Connected c = 0 ∨ Connected c = 1)%Z →
   (Connected c' = 0 ∨ Connected c' = 1)%Z) ∧
  (context_done c = true → context_done c' = true).
Proof.
  revert c. induction ks as [|k ks IH]; intros c H; simpl in H.
  - by simplify_eq.
  - destruct (perform k c) as [c1|] eqn:Hk; [|done].
    destruct (perform_keeps _ _ _ Hk) as (HP & HC & HM & HK & Hd).
    destruct (IH _ H) as (HP' & HC' & HM' & HK' & Hd').
    repeat split; try congruence; auto.
Qed.

(** ** Further properties *)

(** X1. A [Receive] call that returns without its [select] having taken the
    cancellation case returns what the read loop computes, message and error,
    and leaves the peer as the loop left it; so any two such calls from the
    same state return the same. *)
Theorem Receive_returns_the_loop_result (c : hubT) (evs : list event)
    (res : option Msg * option error) (c' : hubT) :
  Receive evs c = Some (res, c') →
  EvPickDone ∉ evs →
  (∃ k, reader_run c k (reader_init c) (wire c) = Some (res, wire c')) ∧
  (∀ evs2 res2 c2,
     Receive evs2 c = Some (res2, c2) → EvPickDone ∉ evs2 →
     res2 = res ∧ wire c2 = wire c').
Proof.
  assert (∀ evs0 res0 c0,
            Receive evs0 c = Some (res0, c0) → EvPickDone ∉ evs0 →
            ∃ k, reader_run c k (reader_init c) (wire c) =
                   Some (res0, wire c0)) as Hloop.
  { intros evs0 [m0 e0] c0 H Hn. unfold Receive in H.
    destruct (receive_run evs0 (receive_init c)) as [s|] eqn:Hrun; [|done].
    destruct (rs_caller s) eqn:Hk; simplify_eq.
    by apply (receive_loop_run c evs0 (receive_init c) s (reader_init c) m0 e0). }
  intros H Hn. split; [by eapply Hloop|].
  intros evs2 res2 c2 H2 Hn2.
  destruct (Hloop _ _ _ H Hn) as [k Hk].
  destruct (Hloop _ _ _ H2 Hn2) as [k2 Hk2].
  pose proof (reader_run_agree _ _ _ _ _ _ _ Hk Hk2) as Heq.
  by simplify_eq.
Qed.

(** X2. On a connection whose receive size is not negative and whose [Read]
    keeps to the slice it is given, [Receive] returns when the read loop
    ends: the schedule without cancellation is a schedule of the call, and
    the call returns the result of the loop, with nothing of the connection
    changed but the peer. *)
Theorem Receive_returns_when_the_loop_ends (c : hubT) (k : nat)
    (res : option Msg * option error) (w' : W) :
  (0 ≤ maximumReceiveMessageSize c)%Z →
  Read_keeps_to_the_slice c →
  reader_run c k (reader_init c) (wire c) = Some (res, w') →
  ∃ turns, Receive (quietReceive turns) c = Some (res, set_wire w' c).
Proof.
  intros _ _ H.
  destruct (receive_quiet_run k (receive_init c) (reader_init c) res w')
    as [turns Hq]; try done.
  exists turns. unfold Receive. rewrite Hq. simpl. by destruct res.
Qed.

(** X3. On a connection whose receive size is not negative: when the buffer
    holds no complete message and the connection's first read fails,
    [Receive] returns a nil message and the error of the read. *)
Theorem Receive_read_error (c : hubT) (message : option Msg)
    (perr : option error) (left : list Byte.byte) (n : nat)
    (d : list Byte.byte) (err : error) (w1 : W) :
  (0 ≤ maximumReceiveMessageSize c)%Z →
  ReadMessage (Protocol c) [] = ((message, false, perr), left) →
  Read (Conn c) (data (reader_init c)) (wire c) = ((n, d, Some err), w1) →
  Receive (quietReceive 1) c = Some ((None, Some err), set_wire w1 c) ∧
  (∀ evs res c',
     Receive evs c = Some (res, c') → EvPickDone ∉ evs →
     res = (None, Some err) ∧ wire c' = w1).
Proof.
  intros _ HR HD.
  assert (reader_run c 1 (reader_init c) (wire c) =
          Some ((None, Some err), w1)) as Hloop.
  { simpl. unfold reader_turn. simpl. rewrite HR. simpl.
    change (replicate (Z.to_nat (maximumReceiveMessageSize c)) Byte.x00)
      with (data (reader_init c)).
    by rewrite HD. }
  split.
  - unfold Receive, quietReceive. simpl. unfold reader_turn. simpl.
    rewrite HR. simpl.
    change (replicate (Z.to_nat (maximumReceiveMessageSize c)) Byte.x00)
      with (data (reader_init c)).
    by rewrite HD.
  - intros evs [m0 e0] c' H Hn. unfold Receive in H.
    destruct (receive_run evs (receive_init c)) as [s|] eqn:Hrun; [|done].
    destruct (rs_caller s) eqn:Hk; simplify_eq.
    destruct (receive_loop_run c evs (receive_init c) s (reader_init c) m0 e0)
      as [k Hk']; try done.
    pose proof (reader_run_agree _ _ _ _ _ _ _ Hloop Hk') as Heq.
    by simplify_eq.
Qed.



(** X6. Whenever [writeMessage] returns, the protocol has written the message
    to the connection, once, also when the call reports the cancellation;
    the error is the one of that write, or the cancellation error of a
    cancelled scope. A call that meets no [Abort] changes nothing else of the
    connection, and on a scope that is not cancelled returns the error of
    the write; such a call always can return. *)
Theorem writeMessage_writes_once (c : hubT) (out : outT) :
  writeMessage out [EvAttempt; EvPickE] c =
    Some (fst (WriteMessage (Protocol c) out (wire c)),
          set_wire (snd (WriteMessage (Protocol c) out (wire c))) c) ∧
  (∀ (evs : list event) (err : option error) (c' : hubT),
     writeMessage out evs c = Some (err, c') →
     wire c' = snd (WriteMessage (Protocol c) out (wire c)) ∧
     (err = fst (WriteMessage (Protocol c) out (wire c)) ∨
      (err = Some Canceled ∧ context_done c' = true)) ∧
     (EvPickDone ∉ evs → err = fst (WriteMessage (Protocol c) out (wire c))) ∧
     (EvAbort ∉ evs →
      c' = set_wire (snd (WriteMessage (Protocol c) out (wire c))) c ∧
      (context_done c = false →
       err = fst (WriteMessage (Protocol c) out (wire c))))).
Proof.
  split.
  - unfold writeMessage. simpl.
    by destruct (WriteMessage (Protocol c) out (wire c)).
  - intros evs err c' H.
    destruct (writeMessage_inv _ _ _ _ _ H)
      as (HP & HC & HM & HI & HW & Herr & Hvia & _ & _ & Hna).
    repeat split; try done.
    + destruct (Hna H0) as (HK & HD & _).
      destruct c, c'; simpl in *. by subst.
    + intros Hf. by destruct (Hna H0) as (_ & _ & ->).
Qed.

(** X7. The typed senders tag their message ([SendInvocation] 1, [StreamItem]
    2, [Completion] 3, [Ping] 6), copy their arguments into it, write exactly
    that message through [writeMessage] and return it with the error of
    [writeMessage], on failure too; unlike [Close] they leave [Connected] as
    it is when no [Abort] comes in. *)
Theorem senders_tag_write_and_return (c c' : hubT) (evs : list event)
    (err : option error) :
  (∀ target args m,
     SendInvocation target args evs c = Some ((m, err), c') →
     m = {| im_Type := 1; im_Target := target; im_Arguments := args |} ∧
     writeMessage (OutInvocation m) evs c = Some (err, c') ∧
     wire c' = snd (WriteMessage (Protocol c) (OutInvocation m) (wire c)) ∧
     (EvAbort ∉ evs → Connected c' = Connected c)) ∧
  (∀ id item m,
     StreamItem id item evs c = Some ((m, err), c') →
     m = {| sm_Type := 2; sm_InvocationID := id; sm_Item := item |} ∧
     writeMessage (OutStreamItem m) evs c = Some (err, c') ∧
     wire c' = snd (WriteMessage (Protocol c) (OutStreamItem m) (wire c)) ∧
     (EvAbort ∉ evs → Connected c' = Connected c)) ∧
  (∀ id result error m,
     Completion id result error evs c = Some ((m, err), c') →
     m = {| co_Type := 3; co_InvocationID := id; co_Result := result;
            co_Error := error |} ∧
     writeMessage (OutCompletion m) evs c = Some (err, c') ∧
     wire c' = snd (WriteMessage (Protocol c) (OutCompletion m) (wire c)) ∧
     (EvAbort ∉ evs → Connected c' = Connected c)) ∧
  (∀ m,
     Ping evs c = Some ((m, err), c') →
     m = {| hm_Type := 6 |} ∧
     writeMessage (OutPing m) evs c = Some (err, c') ∧
     wire c' = snd (WriteMessage (Protocol c) (OutPing m) (wire c)) ∧
     (EvAbort ∉ evs → Connected c' = Connected c)).
Proof.
  split; [|split; [|split]]; intros *; intros H;
    cbv beta zeta delta [SendInvocation StreamItem Completion Ping] in H;
    destruct (writeMessage _ evs c) as [[e1 c1]|] eqn:Hw; simplify_eq;
    destruct (writeMessage_inv _ _ _ _ _ Hw)
      as (_ & _ & _ & _ & HW & _ & _ & _ & _ & Hna);
    (split; [done|]); (split; [done|]); (split; [done|]);
    intros Hn; by destruct (Hna Hn) as (? & _).
Qed.

(** X8. On a connection made by [newHubConnection], after any sequence of
    calls, [Connected] is 0 or 1; so [Start] always brings [IsConnected()] to
    true, and a second [Start] changes nothing. *)
Theorem Connected_is_zero_or_one (connection : @Connection W)
    (protocol : @HubProtocol V Msg W) (size : Z) (w : W)
    (h : gmap ref (gmap string V)) (ks : list call) (c' : hubT) :
  perform_all ks (newHubConnection connection protocol size w h).1 = Some c' →
  (Connected c' = 0 ∨ Connected c' = 1)%Z ∧
  IsConnected (Start c') = true ∧
  Start (Start c') = Start c' ∧
  (IsConnected c' = true → Start c' = c').
Proof.
  intros H.
  destruct (perform_all_keeps _ _ _ H) as (_ & _ & _ & HK & _).
  assert (Connected c' = 0 ∨ Connected c' = 1)%Z as Hc by (apply HK; by left).
  split; [done|]. unfold IsConnected, Start.
  destruct Hc as [Hc|Hc]; rewrite Hc; simpl; by rewrite ?Hc.
Qed.

(** X9. A cancelled scope stays cancelled: after [Abort], whatever calls
    follow ([Start] among them), [Context().Err()] is the cancellation error;
    and a second [Abort] changes nothing. *)
Theorem scope_stays_cancelled (c c' : hubT) (ks : list call) :
  perform_all (CallAbort :: ks) c = Some c' →
  context_done c' = true ∧ context_Err c' = Some Canceled ∧
  Abort (Abort c) = Abort c.
Proof.
  simpl. intros H.
  destruct (perform_all_keeps _ _ _ H) as (_ & _ & _ & _ & Hd).
  unfold context_Err. rewrite Hd by done. done.
Qed.

(** X10. No call replaces the collaborators or the receive size:
    [ConnectionID()] gives the same answer through the life of the
    connection, the answer of the [Connection] given to the constructor. *)
Theorem ConnectionID_is_constant (connection : @Connection W)
    (protocol : @HubProtocol V Msg W) (size : Z) (w : W)
    (h : gmap ref (gmap string V)) (ks : list call) (c' : hubT) :
  perform_all ks (newHubConnection connection protocol size w h).1 = Some c' →
  ConnectionID c' = conn_ConnectionID connection ∧
  Conn c' = connection ∧ Protocol c' = protocol ∧
  maximumReceiveMessageSize c' = size.
Proof.
  intros H. destruct (perform_all_keeps _ _ _ H) as (HP & HC & HM & _).
  unfold ConnectionID. by rewrite HC.
Qed.

(** X11. Two connections never share their items map: a second
    [newHubConnection] gets a map of its own and leaves the first one's map
    in place, so an entry stored for one connection is not seen through the
    other. *)
Theorem connections_do_not_share_items (conn1 conn2 : @Connection W)
    (proto1 proto2 : @HubProtocol V Msg W) (size1 size2 : Z) (w1 w2 : W)
    (h : gmap ref (gmap string V)) (k : string) (v : V) :
  let c1 := (newHubConnection conn1 proto1 size1 w1 h).1 in
  let h1 := (newHubConnection conn1 proto1 size1 w1 h).2 in
  let c2 := (newHubConnection conn2 proto2 size2 w2 h1).1 in
  let h2 := (newHubConnection conn2 proto2 size2 w2 h1).2 in
  Items c1 ≠ Items c2 ∧
  h2 !! Items c1 = Some ∅ ∧ h2 !! Items c2 = Some ∅ ∧
  map_load (Items c2) k (map_store (Items c1) k v h2) = None ∧
  map_load (Items c1) k (map_store (Items c1) k v h2) = Some v.
Proof.
  simpl. unfold Items, fresh_ref. simpl.
  set (r1 := fresh (dom h)).
  set (r2 := fresh (dom (<[r1:=∅]> h))).
  assert (r1 ≠ r2) as Hne.
  { intros Heq. pose proof (is_fresh (dom (<[r1:=∅]> h))) as Hf.
    fold r2 in Hf. rewrite <- Heq in Hf. apply Hf.
    rewrite dom_insert. set_solver. }
  split; [done|]. split.
  { rewrite lookup_insert_ne by done. apply lookup_insert_eq. }
  split; [apply lookup_insert_eq|].
  unfold map_load, map_store. split.
  - rewrite lookup_insert_ne by done. rewrite lookup_insert_eq. done.
  - rewrite lookup_insert_eq. simpl. apply lookup_insert_eq.
Qed.

End HubMore.

(** * More on the HTTP connection *)
Section HTTPMore.

Import HTTP.

Implicit Types (env : Env) (httpConn : httpConnection) (nr : negotiateResponse)
  (w : World) (r : error + option Connection).

(** Run a monadic definition on a world. *)
Ltac run_monad :=
  unfold bind, ret, fail, lift, callHeaders, readHeader, headerDel, headerSet,
    Dial, Do, ReadAll, NewRequest, deferClose, log, set_store, deref in *;
  simpl in *.

(** ** Strings *)

Lemma prefix_app (old b : string) : String.prefix old (old +:+ b) = true.
Proof.
  induction old as [|ch old IH]; simpl; [by destruct b|].
  destruct (Ascii.ascii_dec ch ch); [exact IH|done].
Qed.

Lemma prefix_true_app (old s : string) :
  String.prefix old s = true → ∃ b, s = old +:+ b.
Proof.
  revert s. induction old as [|ch old IH]; intros s H.
  - by exists s.
  - destruct s as [|ch' s]; simpl in H; [done|].
    destruct (Ascii.ascii_dec ch ch') as [->|]; [|done].
    destruct (IH _ H) as [b ->]. by exists b.
Qed.

(** Where [old] does not occur, [strings.ReplaceAll] changes nothing. *)
Lemma ReplaceAll_absent (s old new : string) :
  (∀ a b, s ≠ a +:+ old +:+ b) → ReplaceAll s old new = s.
Proof.
  unfold ReplaceAll. induction s as [|ch s IH]; intros Hno; [done|].
  cbn [replace_from].
  destruct (String.prefix old (String ch s)) eqn:Hp.
  - apply prefix_true_app in Hp as [b Hb]. by destruct (Hno EmptyString b).
  - f_equal. apply IH. intros a b ->. by apply (Hno (String ch a) b).
Qed.

(** ** Choosing the transport *)

(** X12. When the response advertises WebSockets, the dial is the only
    transport attempt, whether ServerSentEvents is advertised too or not: an
    address that does not parse gives its error and no attempt; otherwise
    one dial is made and nothing else, a failed dial gives its error with no
    GET after it, and a successful one gives the WebSocket connection, named
    by [ConnectionID] (also when the URL carries the token as [id]). *)
Theorem WebSockets_is_tried_first_and_alone env httpConn (address : string) nr
    w r w' :
  is_Some (getTransferFormats nr "WebSockets") →
  establish env httpConn address nr w = (r, w') →
  match url_Parse env address with
  | inl err => r = inl err ∧ effectsSince w w' = []
  | inr reqURL =>
      ∃ u hdr,
        effectsSince w w' = [DialCalled u hdr] ∧
        r = match websocket_Dial env u hdr with
            | inl err => inl err
            | inr ws => inr (Some (webSocketConnection (ConnectionID nr) ws))
            end
  end.
Proof.
  intros [fs Hws] H. apply establish_run in H.
  destruct (url_Parse env address) as [err|reqURL].
  - destruct H as [He ->]. split; [done|].
    apply effectsSince_app. by rewrite app_nil_r.
  - rewrite Hws in H.
    apply establishWebSocket_run in H as (u & hdr & He & Hr & _).
    exists u, hdr. split; [by apply effectsSince_app|done].
Qed.

(** X13. When ServerSentEvents is advertised and WebSockets is not, and the
    header provider, if there is one, hands out a map that was made (not a
    [nil] map), one GET is made and no dial: to the parsed address with the
    [id] parameter, with the header [Accept: text/event-stream] set over
    whatever the provider gave for [Accept] (alone, when there is no
    provider); the error of the round trip or of the connection constructor
    is returned as it is. *)
Theorem ServerSentEvents_request env httpConn (address : string) nr
    (reqURL : URL) w r w' :
  getTransferFormats nr "WebSockets" = None →
  is_Some (getTransferFormats nr "ServerSentEvents") →
  url_Parse env address = inr reqURL →
  http_NewRequest env "GET" (URL_String (withID nr reqURL)) = None →
  match headers httpConn with
  | None => True
  | Some provider =>
      let s0 := <[fresh (dom (store w)) := ∅]> (store w) in
      is_Some ((provider s0).2 !! (provider s0).1)
  end →
  establish env httpConn address nr w = (r, w') →
  ∃ req hd,
    effectsSince w w' = [DoCalled req hd (clientOf env httpConn req hd)] ∧
    Method req = "GET" ∧ req_URL req = URL_String (withID nr reqURL) ∧
    req_RawQuery req = None ∧
    hd = Set_
           (match headers httpConn with
            | None => ∅
            | Some provider =>
                let s0 := <[fresh (dom (store w)) := ∅]> (store w) in
                default ∅ ((provider s0).2 !! (provider s0).1)
            end) "Accept" "text/event-stream" ∧
    r = match clientOf env httpConn req hd with
        | inl err => inl err
        | inr resp =>
            match newClientSSEConnection env address (ConnectionID nr)
                    (resp_Body resp) with
            | inl err => inl err
            | inr conn => inr (Some conn)
            end
        end.
Proof.
  intros Hws [fs Hsse] Hp Hn _ H. apply establish_run in H.
  rewrite Hp, Hws, Hsse in H. unfold establishSSE in H. run_monad.
  rewrite Hn in H. simpl in H.
  destruct (headers httpConn) as [provider|]; simpl in *;
    [destruct (provider _) as [r1 s1] eqn:Hp1; simpl in *|];
    rewrite ?lookup_insert_eq in H; simpl in H;
    (destruct (clientOf env httpConn _ _) as [err|resp] eqn:Hd;
     [|destruct (newClientSSEConnection env _ _ _) eqn:Hc]);
    simplify_eq; simpl;
    eexists _, _; (split; [apply effectsSince_app; simpl; by rewrite ?Hd|]);
    simpl; rewrite ?Hd, ?Hc; by repeat split.
Qed.

(** X14. The dial goes to the parsed address with the scheme replaced: [wss]
    when the address has [https], [ws] for every other scheme; the rest of
    the address is kept. *)
Theorem dial_scheme_follows_address env httpConn (address : string) nr
    (reqURL : URL) w r w' (u : URL) (hdr : option Header) :
  url_Parse env address = inr reqURL →
  establish env httpConn address nr w = (r, w') →
  DialCalled u hdr ∈ effectsSince w w' →
  Scheme u = (if decide (Scheme reqURL = "https") then "wss" else "ws") ∧
  (Scheme u = "wss" ↔ Scheme reqURL = "https") ∧
  Rest u = Rest reqURL.
Proof.
  intros Hp H Hin. apply establish_run in H. rewrite Hp in H.
  destruct (getTransferFormats nr "WebSockets").
  - apply establishWebSocket_run in H as (u' & hdr' & He & _ & HR & HS & _).
    rewrite (effectsSince_app _ _ _ He) in Hin.
    apply list_elem_of_singleton in Hin. injection Hin as -> ->.
    unfold withID in *. simpl in *. rewrite HS.
    split; [done|]. split; [|done].
    destruct (decide (Scheme reqURL = "https")); split; try done.
  - exfalso. destruct (getTransferFormats nr "ServerSentEvents").
    + apply establishSSE_run in H
        as [[He _]|(req' & hd' & res' & He & _)].
      * rewrite (effectsSince_app w w' []) in Hin by (by rewrite app_nil_r).
        by apply elem_of_nil in Hin.
      * rewrite (effectsSince_app _ _ _ He) in Hin.
        by apply list_elem_of_singleton in Hin.
    + destruct H as [-> _]. unfold effectsSince in Hin.
      rewrite drop_all in Hin. by apply elem_of_nil in Hin.
Qed.

(** X15. One call of [NewHTTPConnection] attempts at most one transport, and
    returns a connection only after exactly one attempt. *)
Theorem at_most_one_transport_attempt env (address : string)
    (options : list (option (httpConnection → httpConnection * option error)))
    w r w' :
  NewHTTPConnection env address options w = (r, w') →
  length (filter (λ e, isTransportAttempt e = true) (effectsSince w w')) ≤ 1 ∧
  (∀ conn, r = inr (Some conn) →
     length (filter (λ e, isTransportAttempt e = true) (effectsSince w w')) = 1).
Proof.
  intros H.
  apply NewHTTPConnection_run in H
    as [[He [err ->]]|(httpConn & req & hd & result & _ & Hm & Hu & _ & Hres)].
  { rewrite (effectsSince_app w w' []) by (by rewrite app_nil_r).
    simpl. split; [lia|done]. }
  assert (isTransportAttempt (DoCalled req hd result) ≠ true) as Hpost.
  { simpl. rewrite Hm. done. }
  destruct result as [err|resp].
  { destruct Hres as [He ->]. rewrite (effectsSince_app _ _ _ He).
    rewrite filter_cons_False by done. simpl. split; [lia|done]. }
  destruct Hres as (mid & He & Hmid).
  rewrite (effectsSince_app _ _ _ He).
  rewrite filter_cons_False by done. rewrite filter_app.
  rewrite (filter_cons_False _ (BodyClose _)) by done. rewrite filter_nil.
  rewrite app_nil_r.
  destruct (decide (StatusCode resp = 200%Z)) as [Hs|Hs].
  2:{ destruct Hmid as [-> ->]. simpl. split; [lia|done]. }
  destruct (body_ReadAll (resp_Body resp)) as [err|bytes].
  { destruct Hmid as [-> ->]. rewrite filter_cons_False by done.
    simpl. split; [lia|done]. }
  destruct (json_Unmarshal env bytes) as [err|nr].
  { destruct Hmid as [-> ->]. rewrite filter_cons_False by done.
    simpl. split; [lia|done]. }
  destruct Hmid as (w1 & w2 & est & Hest & He2 & ->).
  rewrite filter_cons_False by done.
  destruct (establish_effects _ _ _ _ _ _ _ Hest) as (est' & He3 & Hconn & Hsh).
  rewrite He2 in He3. apply app_inv_head in He3. subst est'.
  destruct Hsh as [->|(e & u & -> & Ht & _)].
  - simpl. split; [lia|]. intros conn Hr. by destruct (Hconn conn Hr).
  - rewrite filter_cons_True by done. simpl. split; [lia|done].
Qed.

(** ** Headers and the access token *)

(** X16. Without a header provider the dial options carry no header map and
    the dial URL is the parsed address with [id] set and nothing else
    touched: no [access_token] parameter is added. *)
Theorem no_provider_no_access_token env httpConn (address : string) nr
    (reqURL : URL) w r w' (u : URL) (hdr : option Header) :
  headers httpConn = None →
  url_Parse env address = inr reqURL →
  establish env httpConn address nr w = (r, w') →
  DialCalled u hdr ∈ effectsSince w w' →
  hdr = None ∧
  Query u = Query (withID nr reqURL) ∧
  Query u !! "access_token" = Query reqURL !! "access_token".
Proof.
  intros Hh Hp H Hin. apply establish_run in H. rewrite Hp in H.
  destruct (getTransferFormats nr "WebSockets").
  - apply establishWebSocket_run in H as (u' & hdr' & He & _ & _ & _ & Hq).
    rewrite (effectsSince_app _ _ _ He) in Hin.
    apply list_elem_of_singleton in Hin. injection Hin as -> ->.
    rewrite Hh in Hq. destruct Hq as [-> Hq]. unfold Query. rewrite Hq.
    split; [done|]. split; [done|].
    unfold withID, Query, Encode, Set_. simpl.
    destruct (decide (ConnectionToken nr ≠ EmptyString));
      by rewrite lookup_insert_ne.
  - exfalso. destruct (getTransferFormats nr "ServerSentEvents").
    + apply establishSSE_run in H
        as [[He _]|(req' & hd' & res' & He & _)].
      * rewrite (effectsSince_app w w' []) in Hin by (by rewrite app_nil_r).
        by apply elem_of_nil in Hin.
      * rewrite (effectsSince_app _ _ _ He) in Hin.
        by apply list_elem_of_singleton in Hin.
    + destruct H as [-> _]. unfold effectsSince in Hin.
      rewrite drop_all in Hin. by apply elem_of_nil in Hin.
Qed.

(** X17. The constructor writes into the map the provider hands out. With a
    provider that hands out one shared map: the WebSockets case deletes
    [Authorization] from that map, for everyone who holds it, and the dial
    options get the map so changed; the ServerSentEvents case sets [Accept]
    in it. *)
Theorem provider_map_is_written_through env (client0 : option Doer)
    (qs : option (unit → string)) (r0 : ref) (hs : Header) (address : string)
    nr (reqURL : URL) w r w' :
  store w !! r0 = Some hs →
  url_Parse env address = inr reqURL →
  establish env
    {| client := client0; headers := Some (shared_provider r0);
       queryString := qs |} address nr w = (r, w') →
  (is_Some (getTransferFormats nr "WebSockets") →
   Get hs "Authorization" ≠ EmptyString →
   store w' !! r0 = Some (Del hs "Authorization") ∧
   ∃ u, effectsSince w w' = [DialCalled u (Some (Del hs "Authorization"))]) ∧
  (getTransferFormats nr "WebSockets" = None →
   is_Some (getTransferFormats nr "ServerSentEvents") →
   http_NewRequest env "GET" (URL_String (withID nr reqURL)) = None →
   store w' !! r0 = Some (Set_ hs "Accept" "text/event-stream")).
Proof.
  intros Hs Hp H. apply establish_run in H. rewrite Hp in H. split.
  - intros [fs Hws] Hne. rewrite Hws in H.
    unfold establishWebSocket in H. run_monad. unfold shared_provider in H.
    simpl in H. rewrite Hs in H. simpl in H.
    rewrite decide_True in H by done. simpl in H.
    rewrite lookup_insert_eq in H. simpl in H.
    destruct (websocket_Dial env _ _) eqn:Hd; simplify_eq; simpl;
      rewrite ?Hs; simpl;
      (split; [apply lookup_insert_eq|]); eexists; apply effectsSince_app;
      simpl; by rewrite ?Hs.
  - intros Hws [fs Hsse] Hn. rewrite Hws, Hsse in H.
    unfold establishSSE in H. run_monad. rewrite Hn in H.
    unfold shared_provider in H. simpl in H.
    assert (fresh (dom (store w)) ≠ r0) as Hfresh.
    { intros Heq. pose proof (is_fresh (dom (store w))) as Hf.
      rewrite Heq in Hf. apply Hf. apply elem_of_dom. eauto. }
    rewrite !lookup_insert_eq in H.
    rewrite !(lookup_insert_ne (store w)) in H by done.
    rewrite Hs in H. simpl in H.
    destruct (clientOf env _ _ _) as [err|resp] eqn:Hd;
      [|destruct (newClientSSEConnection env _ _ _) eqn:Hc];
      simplify_eq; simpl; apply lookup_insert_eq.
Qed.

(** X18. What reaches the URL as [access_token] is the whole value of the
    [Authorization] header with every "Bearer " taken out: the token of a
    bearer header, and for a header of any other scheme the header value
    unchanged, scheme word included. *)
Theorem access_token_is_the_header_less_Bearer env (client0 : option Doer)
    (provider : HeaderProvider) (qs : option (unit → string))
    (address : string) nr (reqURL : URL) (v : string) w r w' :
  url_Parse env address = inr reqURL →
  is_Some (getTransferFormats nr "WebSockets") →
  Get (default ∅ ((provider (store w)).2 !! (provider (store w)).1))
    "Authorization" = v →
  v ≠ EmptyString →
  establish env
    {| client := client0; headers := Some provider; queryString := qs |}
    address nr w = (r, w') →
  ∃ u hdr,
    effectsSince w w' = [DialCalled u hdr] ∧
    Query u !! "access_token" = Some [ReplaceAll v "Bearer " EmptyString] ∧
    (∀ tok, v = "Bearer " +:+ tok →
       (∀ a b, tok ≠ a +:+ "Bearer " +:+ b) →
       Query u !! "access_token" = Some [tok]) ∧
    ((∀ a b, v ≠ a +:+ "Bearer " +:+ b) →
     Query u !! "access_token" = Some [v]).
Proof.
  intros Hp [fs Hws] Hv Hne H. apply establish_run in H.
  rewrite Hp, Hws in H.
  apply establishWebSocket_run in H as (u & hdr & He & _ & _ & _ & Hh).
  cbn [headers] in Hh. cbv zeta in Hh. destruct Hh as [_ Hq].
  rewrite Hv in Hq. rewrite bool_decide_eq_true_2 in Hq by done.
  exists u, hdr. split; [by apply effectsSince_app|].
  unfold Query. rewrite Hq, lookup_insert_eq. split; [done|]. split.
  - intros tok -> Hno. rewrite ReplaceAll_Bearer.
    by rewrite ReplaceAll_absent.
  - intros Hno. by rewrite ReplaceAll_absent.
Qed.

(** ** Options and failures *)

Lemma applyOptions_app
    (a b : list (option (httpConnection → httpConnection * option error)))
    (c : httpConnection) :
  applyOptions (a ++ b) c =
  match applyOptions a c with
  | inl err => inl err
  | inr c1 => applyOptions b c1
  end.
Proof.
  revert c. induction a as [|[o|] a IH]; intros c; simpl; [done| |apply IH].
  destruct (o c) as [c1 [err|]]; [done|apply IH].
Qed.

(** X19. An option that returns an error ends the constructor: the options
    after it are not run, the error is returned, and nothing is done to the
    outside; [nil] options are passed over. *)
Theorem failing_option_stops_the_constructor env (address : string)
    (before after : list (option (httpConnection → httpConnection * option error)))
    (opt : httpConnection → httpConnection * option error)
    (c1 : httpConnection) (err : error) w :
  applyOptions before
    {| client := None; headers := None; queryString := None |} = inr c1 →
  (opt c1).2 = Some err →
  NewHTTPConnection env address (before ++ Some opt :: after) w =
    (inl err, w) ∧
  NewHTTPConnection env address (before ++ None :: after) w =
    NewHTTPConnection env address (before ++ after) w.
Proof.
  intros Hb Ho. split.
  - unfold NewHTTPConnection, configure, bind, lift.
    rewrite applyOptions_app, Hb. simpl.
    destruct (opt c1) as [c2 e2]. simpl in Ho. by subst.
  - unfold NewHTTPConnection, configure. by rewrite !applyOptions_app.
Qed.

(** X20. Of several options for the same setting the last one counts, each
    option leaves the other settings alone, and a constructor given no
    client option uses the default client. *)
Theorem last_option_wins env
    (options : list (option (httpConnection → httpConnection * option error)))
    (c1 : httpConnection) (d : Doer) (p : HeaderProvider) (q : unit → string) :
  applyOptions options
    {| client := None; headers := None; queryString := None |} = inr c1 →
  configure env (options ++ [Some (WithHTTPClient d)]) =
    inr {| client := Some d; headers := headers c1;
           queryString := queryString c1 |} ∧
  configure env (options ++ [Some (WithHTTPHeaders p)]) =
    inr {| client := Some (default (default_client env) (client c1));
           headers := Some p; queryString := queryString c1 |} ∧
  configure env (options ++ [Some (WithQueryString q)]) =
    inr {| client := Some (default (default_client env) (client c1));
           headers := headers c1; queryString := Some q |} ∧
  configure env options =
    inr {| client := Some (default (default_client env) (client c1));
           headers := headers c1; queryString := queryString c1 |}.
Proof.
  intros Hb. unfold configure. rewrite !applyOptions_app, Hb. simpl.
  destruct c1 as [[cl|] hd qs]; by repeat split.
Qed.

(** X21. A failure of the negotiation is returned as it is and no transport
    is attempted after it: the error of the round trip (then nothing else is
    done, there is no body to close), the error of reading the body, the
    error of decoding it. *)
Theorem negotiation_errors_are_returned env (address : string)
    (options : list (option (httpConnection → httpConnection * option error)))
    w r w' (req : Request) (hd : Header) (result : error + Response) :
  NewHTTPConnection env address options w = (r, w') →
  DoCalled req hd result ∈ effectsSince w w' →
  isNegotiatePOST (DoCalled req hd result) = true →
  match result with
  | inl err => r = inl err ∧ effectsSince w w' = [DoCalled req hd result]
  | inr resp =>
      StatusCode resp = 200%Z →
      match body_ReadAll (resp_Body resp) with
      | inl err =>
          r = inl err ∧
          Forall (λ e, isTransportAttempt e = false) (effectsSince w w')
      | inr bytes =>
          match json_Unmarshal env bytes with
          | inl err =>
              r = inl err ∧
              Forall (λ e, isTransportAttempt e = false) (effectsSince w w')
          | inr nr => True
          end
      end
  end.
Proof.
  intros H Hin Hpost.
  apply NewHTTPConnection_run in H
    as [[He _]|(httpConn & req0 & hd0 & result0 & _ & Hm & Hu & _ & Hres)].
  { rewrite (effectsSince_app w w' []) in Hin by (by rewrite app_nil_r).
    by apply elem_of_nil in Hin. }
  assert (isTransportAttempt (DoCalled req0 hd0 result0) = false) as Hna
    by (simpl; by rewrite Hm).
  destruct result0 as [err0|resp0].
  { destruct Hres as [He ->]. rewrite (effectsSince_app _ _ _ He) in *.
    apply list_elem_of_singleton in Hin. by injection Hin as -> -> ->. }
  destruct Hres as (mid & He & Hmid).
  rewrite (effectsSince_app _ _ _ He) in *.
  assert (DoCalled req hd result = DoCalled req0 hd0 (inr resp0)) as Heq.
  { apply elem_of_cons in Hin as [?|Hin]; [done|]. exfalso.
    apply elem_of_app in Hin as [Hin|Hin];
      [|by apply list_elem_of_singleton in Hin].
    destruct (decide (StatusCode resp0 = 200%Z)) as [Hs|Hs];
      [|destruct Hmid as [-> _]; by apply elem_of_nil in Hin].
    destruct (body_ReadAll (resp_Body resp0)) as [err|bytes].
    { destruct Hmid as [-> _]. by apply list_elem_of_singleton in Hin. }
    destruct (json_Unmarshal env bytes) as [err|nr].
    { destruct Hmid as [-> _]. by apply list_elem_of_singleton in Hin. }
    destruct Hmid as (w1 & w2 & est & Hest & He2 & ->).
    apply elem_of_cons in Hin as [?|Hin]; [done|].
    destruct (establish_effects _ _ _ _ _ _ _ Hest) as (est' & He3 & _ & Hsh).
    rewrite He2 in He3. apply app_inv_head in He3. subst est'.
    destruct Hsh as [->|(e & u & -> & _ & Hnp & _)];
      [by apply elem_of_nil in Hin|].
    apply list_elem_of_singleton in Hin. subst e. congruence. }
  injection Heq as -> -> ->. intros Hs.
  rewrite decide_True in Hmid by done.
  destruct (body_ReadAll (resp_Body resp0)) as [err|bytes].
  { destruct Hmid as [-> ->]. split; [done|]. by repeat constructor. }
  destruct (json_Unmarshal env bytes) as [err|nr]; [|done].
  destruct Hmid as [-> ->]. split; [done|]. by repeat constructor.
Qed.

End HTTPMore.

(** * The further properties on concrete runs *)
Section MoreRuns.

Import Hub HTTP Scenario.

Ltac not_in_schedule :=
  let Hin := fresh in
  intros Hin; repeat (apply elem_of_cons in Hin as [?|Hin]; [discriminate|]);
  by apply elem_of_nil in Hin.

Lemma Receive_returns_the_loop_result_witness :
  Receive lateSelect hub = Some ((Some 42, None), Abort hub) ∧
  (EvPickDone ∉ lateSelect) ∧
  ∃ k, reader_run hub k (reader_init hub) (wire hub) =
         Some ((Some 42, None), wire (Abort hub)).
Proof.
  split; [reflexivity|].
  assert (EvPickDone ∉ lateSelect) as Hn by not_in_schedule.
  split; [exact Hn|].
  exact (proj1 (Receive_returns_the_loop_result hub lateSelect (Some 42, None)
                  (Abort hub) eq_refl Hn)).
Defined.

Lemma Receive_returns_when_the_loop_ends_witness :
  (0 ≤ maximumReceiveMessageSize pairHub)%Z ∧
  Read_keeps_to_the_slice pairHub ∧
  reader_run pairHub 3 (reader_init pairHub) (wire pairHub) =
    Some ((Some 7, None), 2) ∧
  ∃ turns,
    Receive (quietReceive turns) pairHub =
      Some ((Some 7, None), set_wire 2 pairHub).
Proof.
  assert (0 ≤ maximumReceiveMessageSize pairHub)%Z as Hsize by (simpl; lia).
  assert (Read_keeps_to_the_slice pairHub) as Hread.
  { intros d w Hd. simpl in *. rewrite length_drop. lia. }
  split; [exact Hsize|]. split; [exact Hread|]. split; [reflexivity|].
  exact (Receive_returns_when_the_loop_ends pairHub 3 (Some 7, None) 2
           Hsize Hread eq_refl).
Defined.

Lemma Receive_read_error_witness :
  (0 ≤ maximumReceiveMessageSize brokenHub)%Z ∧
  Receive (quietReceive 1) brokenHub =
    Some ((None, Some (IOError "reset")), set_wire 1 brokenHub).
Proof.
  assert (0 ≤ maximumReceiveMessageSize brokenHub)%Z as Hsize by (simpl; lia).
  split; [exact Hsize|].
  exact (proj1 (Receive_read_error brokenHub None None [] 0
                  (data (reader_init brokenHub)) (IOError "reset") 1
                  Hsize eq_refl eq_refl)).
Defined.



Lemma writeMessage_writes_once_witness :
  writeMessage pingMessage doneFirstWrite hub =
    Some (Some Canceled, set_wire 1 (Abort hub)) ∧
  wire (set_wire 1 (Abort hub)) = 1.
Proof.
  split; [reflexivity|].
  exact (proj1 (proj2 (writeMessage_writes_once hub pingMessage) doneFirstWrite
                  (Some Canceled) (set_wire 1 (Abort hub)) eq_refl)).
Defined.

Lemma senders_tag_write_and_return_witness :
  SendInvocation "Foo" ["a"; "b"] plainWrite (Start hub) =
    Some (({| im_Type := 1; im_Target := "Foo"; im_Arguments := ["a"; "b"] |},
           None), set_wire 1 (Start hub)) ∧
  Connected (set_wire 1 (Start hub)) = Connected (Start hub).
Proof.
  split; [reflexivity|].
  assert (EvAbort ∉ plainWrite) as Hn by not_in_schedule.
  destruct (proj1 (senders_tag_write_and_return (Start hub)
                     (set_wire 1 (Start hub)) plainWrite None)
              "Foo" ["a"; "b"] _ eq_refl) as (_ & _ & _ & Hc).
  exact (Hc Hn).
Defined.

Lemma Connected_is_zero_or_one_witness :
  ∃ c',
    perform_all session hub = Some c' ∧
    (Connected c' = 0 ∨ Connected c' = 1)%Z ∧ IsConnected (Start c') = true.
Proof.
  eexists. split; [reflexivity|].
  destruct (Connected_is_zero_or_one connection protocol 8 0 ∅ session _ eq_refl)
    as (H1 & H2 & _).
  split; [exact H1|exact H2].
Defined.

Lemma scope_stays_cancelled_witness :
  ∃ c',
    perform_all (CallAbort :: [CallStart; CallPing doneFirstWrite]) hub =
      Some c' ∧
    IsConnected c' = false ∧
    context_Err c' = Some Canceled.
Proof.
  eexists. split; [reflexivity|]. split; [reflexivity|].
  exact (proj1 (proj2 (scope_stays_cancelled hub _
                         [CallStart; CallPing doneFirstWrite] eq_refl))).
Defined.

Lemma ConnectionID_is_constant_witness :
  ∃ c', perform_all session hub = Some c' ∧ Hub.ConnectionID c' = "c-1".
Proof.
  eexists. split; [reflexivity|].
  exact (proj1 (ConnectionID_is_constant connection protocol 8 0 ∅ session _
                  eq_refl)).
Defined.

Lemma WebSockets_is_tried_first_and_alone_witness :
  let httpConn :=
    {| client := None; headers := None; queryString := None |} in
  let run :=
    establish (env [serverSentEvents; webSockets]) httpConn
      "https://example.org/hub" (negotiated [serverSentEvents; webSockets])
      world0 in
  ∃ u hdr,
    effectsSince world0 run.2 = [DialCalled u hdr] ∧
    run.1 = inr (Some (webSocketConnection "cid" 7)).
Proof.
  intros httpConn run.
  apply (WebSockets_is_tried_first_and_alone
           (env [serverSentEvents; webSockets]) httpConn
           "https://example.org/hub" (negotiated [serverSentEvents; webSockets])
           world0 run.1 run.2).
  - by eexists.
  - apply surjective_pairing.
Defined.

Lemma ServerSentEvents_request_witness :
  let httpConn :=
    {| client := Some (respond 200 "200 OK");
       headers := Some (shared_provider 5); queryString := None |} in
  let run :=
    establish (env [serverSentEvents]) httpConn "https://example.org/hub"
      (negotiated [serverSentEvents]) world1 in
  ∃ req hd,
    effectsSince world1 run.2 =
      [DoCalled req hd (clientOf (env [serverSentEvents]) httpConn req hd)] ∧
    Method req = "GET" ∧
    hd !! "Accept" = Some ["text/event-stream"] ∧
    hd !! "Authorization" = Some ["Bearer XYZ"].
Proof.
  intros httpConn run.
  destruct (ServerSentEvents_request (env [serverSentEvents]) httpConn
              "https://example.org/hub" (negotiated [serverSentEvents]) hubURL
              world1 run.1 run.2)
    as (req & hd & He & Hm & _ & _ & Hh & _).
  - reflexivity.
  - by eexists.
  - reflexivity.
  - reflexivity.
  - by eexists.
  - apply surjective_pairing.
  - exists req, hd. split; [exact He|]. split; [exact Hm|].
    rewrite Hh. split; vm_compute; reflexivity.
Defined.

Lemma dial_scheme_follows_address_witness :
  let httpConn :=
    {| client := None; headers := None; queryString := None |} in
  let run :=
    establish (env [webSockets]) httpConn "https://example.org/hub"
      (negotiated [webSockets]) world0 in
  let u :=
    {| Scheme := "wss"; Rest := "example.org/hub";
       RawQuery := {["id" := ["tok"]]} |} in
  DialCalled u None ∈ effectsSince world0 run.2 ∧
  Scheme u = "wss" ∧ Rest u = Rest hubURL.
Proof.
  intros httpConn run u.
  assert (DialCalled u None ∈ effectsSince world0 run.2) as Hin.
  { vm_compute. apply elem_of_cons. by left. }
  split; [exact Hin|].
  destruct (dial_scheme_follows_address (env [webSockets]) httpConn
              "https://example.org/hub" (negotiated [webSockets]) hubURL world0
              run.1 run.2 u None eq_refl (surjective_pairing _) Hin)
    as (Hs & _ & Hr).
  split; [exact Hs|exact Hr].
Defined.

Lemma at_most_one_transport_attempt_witness :
  let run :=
    NewHTTPConnection (env [webSockets; serverSentEvents])
      "https://example.org/hub" [Some (WithHTTPHeaders bearer)] world0 in
  run.1 = inr (Some (webSocketConnection "cid" 7)) ∧
  length (filter (λ e, isTransportAttempt e = true)
            (effectsSince world0 run.2)) = 1.
Proof.
  intros run. split; [reflexivity|].
  exact (proj2 (at_most_one_transport_attempt
                  (env [webSockets; serverSentEvents]) "https://example.org/hub"
                  [Some (WithHTTPHeaders bearer)] world0 run.1 run.2
                  (surjective_pairing _)) _ eq_refl).
Defined.

Lemma no_provider_no_access_token_witness :
  let httpConn :=
    {| client := None; headers := None; queryString := None |} in
  let run :=
    establish (env [webSockets]) httpConn "https://example.org/hub"
      (negotiated [webSockets]) world0 in
  let u :=
    {| Scheme := "wss"; Rest := "example.org/hub";
       RawQuery := {["id" := ["tok"]]} |} in
  DialCalled u None ∈ effectsSince world0 run.2 ∧
  Query u !! "access_token" = None.
Proof.
  intros httpConn run u.
  assert (DialCalled u None ∈ effectsSince world0 run.2) as Hin.
  { vm_compute. apply elem_of_cons. by left. }
  split; [exact Hin|].
  destruct (no_provider_no_access_token (env [webSockets]) httpConn
              "https://example.org/hub" (negotiated [webSockets]) hubURL world0
              run.1 run.2 u None eq_refl eq_refl (surjective_pairing _) Hin)
    as (_ & _ & Hq).
  rewrite Hq. reflexivity.
Defined.

Lemma provider_map_is_written_through_witness :
  let run :=
    establish (env [webSockets])
      {| client := None; headers := Some (shared_provider 5);
         queryString := None |}
      "https://example.org/hub" (negotiated [webSockets]) world1 in
  store run.2 !! 5%positive = Some (Del callerHeaders "Authorization") ∧
  Del callerHeaders "Authorization" !! "Authorization" = None.
Proof.
  intros run. split; [|reflexivity].
  destruct (proj1 (provider_map_is_written_through (env [webSockets]) None None
                     5 callerHeaders "https://example.org/hub"
                     (negotiated [webSockets]) hubURL world1 run.1 run.2
                     eq_refl eq_refl (surjective_pairing _)))
    as [Hs _].
  - by eexists.
  - vm_compute. discriminate.
  - exact Hs.
Defined.

Lemma access_token_is_the_header_less_Bearer_witness :
  let run :=
    establish (env [webSockets])
      {| client := None; headers := Some basic; queryString := None |}
      "https://example.org/hub" (negotiated [webSockets]) world0 in
  ∃ u hdr,
    effectsSince world0 run.2 = [DialCalled u hdr] ∧
    Query u !! "access_token" = Some ["Basic dXNlcjpwdw=="].
Proof.
  intros run.
  destruct (access_token_is_the_header_less_Bearer (env [webSockets]) None basic
              None "https://example.org/hub" (negotiated [webSockets]) hubURL
              "Basic dXNlcjpwdw==" world0 run.1 run.2)
    as (u & hdr & He & Hq & _).
  - reflexivity.
  - by eexists.
  - reflexivity.
  - discriminate.
  - apply surjective_pairing.
  - exists u, hdr. split; [exact He|]. rewrite Hq. reflexivity.
Defined.

Lemma failing_option_stops_the_constructor_witness :
  NewHTTPConnection (env [webSockets]) "https://example.org/hub"
    ([Some (WithHTTPHeaders bearer)] ++
     Some refuse :: [Some (WithHTTPClient unreachable)]) world0 =
    (inl (External "refused"), world0).
Proof.
  exact (proj1 (failing_option_stops_the_constructor (env [webSockets])
                  "https://example.org/hub" [Some (WithHTTPHeaders bearer)]
                  [Some (WithHTTPClient unreachable)] refuse _
                  (External "refused") world0 eq_refl eq_refl)).
Defined.

Lemma last_option_wins_witness :
  configure (env [webSockets])
    ([Some (WithHTTPClient unreachable); None] ++
     [Some (WithHTTPClient (respond 200 "200 OK"))]) =
    inr {| client := Some (respond 200 "200 OK"); headers := None;
           queryString := None |}.
Proof.
  exact (proj1 (last_option_wins (env [webSockets])
                  [Some (WithHTTPClient unreachable); None] _
                  (respond 200 "200 OK") bearer (λ _, "v=1") eq_refl)).
Defined.

Lemma negotiation_errors_are_returned_witness :
  let run :=
    NewHTTPConnection (env [webSockets]) "https://example.org/hub"
      [Some (WithHTTPClient unreachable)] world0 in
  let req :=
    {| Method := "POST"; req_URL := Sprintf_negotiate "https://example.org/hub";
       req_RawQuery := None; req_Header := 1%positive |} in
  run.1 = inl (External "unreachable") ∧
  effectsSince world0 run.2 = [DoCalled req ∅ (inl (External "unreachable"))].
Proof.
  intros run req.
  apply (negotiation_errors_are_returned (env [webSockets])
           "https://example.org/hub" [Some (WithHTTPClient unreachable)] world0
           run.1 run.2 req ∅ (inl (External "unreachable"))).
  - apply surjective_pairing.
  - vm_compute. apply elem_of_cons. by left.
  - reflexivity.
Defined.


End MoreRuns.
